(** * N-queens evolutionary algorithm (ec.py): shallow embedding and properties

    The development follows [ec.py].  Python integers are [Z], Python lists
    are [list] with the interpreter's index rules written out, and the
    process-wide random generator is threaded explicitly through a small
    state-and-exception monad.  The class [Queen] lives in [queen.py]; the
    parts of it that [ec.py] relies on are modelled from the specification
    and marked as such. *)

From Stdlib Require Import Ascii.
From stdpp Require Import base decidable option list list_numbers numbers.
From stdpp Require Import strings pretty sorting.

Open Scope Z_scope.

(** ** Results of running Python code *)

Inductive exn := IndexError | ValueError.

Inductive result (A : Type) : Type :=
| Ok (a : A)
| Raise (e : exn)
| OutOfFuel.
Arguments Ok {A} a.
Arguments Raise {A} e.
Arguments OutOfFuel {A}.

#[global] Instance result_ret : MRet result := λ A a, Ok a.
#[global] Instance result_bind : MBind result := λ A B f r,
  match r with
  | Ok a => f a
  | Raise e => Raise e
  | OutOfFuel => OutOfFuel
  end.

(** ** The random stream

    [random] is one generator for the whole process.  A generator state is
    the infinite sequence of raw draws it will deliver together with the
    number of draws already consumed. *)

Record Rng := mkRng { draws : nat → Z; cursor : nat }.

Definition advance (g : Rng) : Rng := mkRng (draws g) (S (cursor g)).

(** Code that draws random numbers and may raise. *)
Definition M (A : Type) : Type := Rng → result (A * Rng).

#[global] Instance M_ret : MRet M := λ A a g, Ok (a, g).
#[global] Instance M_bind : MBind M := λ A B f m g,
  match m g with
  | Ok (a, g') => f a g'
  | Raise e => Raise e
  | OutOfFuel => OutOfFuel
  end.

Definition out_of_fuel {A} : M A := λ _, OutOfFuel.

Definition lift {A} (r : result A) : M A := λ g,
  match r with
  | Ok a => Ok (a, g)
  | Raise e => Raise e
  | OutOfFuel => OutOfFuel
  end.

(** [random.randrange(n)]: an integer of [[0, n)]; [ValueError] on an empty
    range. *)
Definition randrange (n : Z) : M Z := λ g,
  if decide (0 < n)
  then Ok (draws g (cursor g) `mod` n, advance g)
  else Raise ValueError.

(** ** Python lists *)

(** Index normalisation of [l[i]]: a negative index counts from the end. *)
Definition py_index {A} (l : list A) (i : Z) : option nat :=
  let len := Z.of_nat (length l) in
  let j := if decide (i < 0) then i + len else i in
  if decide (0 ≤ j < len) then Some (Z.to_nat j) else None.

(** [l[i]] *)
Definition py_getitem {A} (l : list A) (i : Z) : result A :=
  match py_index l i with
  | Some k => match l !! k with Some x => Ok x | None => Raise IndexError end
  | None => Raise IndexError
  end.

(** [l[i] = v] *)
Definition py_setitem {A} (l : list A) (i : Z) (v : A) : result (list A) :=
  match py_index l i with
  | Some k => Ok (<[k:=v]> l)
  | None => Raise IndexError
  end.

(** [range(a, b)] *)
Definition py_range (a b : Z) : list Z := seqZ a (b - a).

(** [l[:k]] *)
Definition py_slice_to {A} (l : list A) (k : Z) : list A :=
  if decide (k < 0)
  then take (Z.to_nat (Z.of_nat (length l) + k)) l
  else take (Z.to_nat k) l.

(** A [for] loop over [xs] whose body may raise, threading the loop state. *)
Fixpoint for_each {S X} (body : S → X → result S) (s : S) (xs : list X)
  : result S :=
  match xs with
  | [] => Ok s
  | x :: xs' => s' ← body s x; for_each body s' xs'
  end.

(** A [for] loop whose body draws random numbers, collecting the results. *)
Fixpoint for_each_M {X Y} (body : X → M Y) (xs : list X) : M (list Y) :=
  match xs with
  | [] => mret []
  | x :: xs' => y ← body x; ys ← for_each_M body xs'; mret (y :: ys)
  end.

(** ** The class [Queen] *)

(** Modelled from the spec: the class [Queen] of [queen.py] is not part of
    the sources at hand.  [ec.py] reads and writes the attributes [board]
    (column of the queen of each row) and [valid_queens] (the fitness); the
    spec's data model adds the size N. *)
Record Queen := mkQueen { size : Z; board : list Z; valid_queens : Z }.

Definition set_board (q : Queen) (b : list Z) : Queen :=
  mkQueen (size q) b (valid_queens q).

(** [deepcopy]: the copy shares nothing with the original, so in a value
    model it is the same value. *)
Definition deepcopy (q : Queen) : Queen := q.

(** Modelled from the spec: two queens attack each other iff they share a
    column or a diagonal. *)
Definition attacks (r1 c1 r2 c2 : Z) : bool :=
  bool_decide (c1 = c2) || bool_decide (Z.abs (r1 - r2) = Z.abs (c1 - c2)).

(** The queens of a board as (row, column) pairs. *)
Definition queens (b : list Z) : list (Z * Z) :=
  imap (λ r c, (Z.of_nat r, c)) b.

(** Modelled from the spec: a queen is valid iff no queen of another row
    attacks it. *)
Definition is_valid (qs : list (Z * Z)) (q : Z * Z) : bool :=
  forallb (λ q', bool_decide (q'.1 = q.1) || negb (attacks q.1 q.2 q'.1 q'.2)) qs.

(** Modelled from the spec: the fitness is the number of valid queens. *)
Definition count_valid_queens (b : list Z) : Z :=
  Z.of_nat (length (List.filter (is_valid (queens b)) (queens b))).

(** Modelled from the spec: [Queen.update_valid_queens] recomputes the
    fitness from the current positions. *)
Definition update_valid_queens (q : Queen) : Queen :=
  mkQueen (size q) (board q) (count_valid_queens (board q)).

(** Modelled from the spec: [Queen(n)] draws every position from [[0, n)]
    and computes the fitness. *)
Fixpoint random_positions (k : nat) (n : Z) : M (list Z) :=
  match k with
  | O => mret []
  | S k' => c ← randrange n; cs ← random_positions k' n; mret (c :: cs)
  end.

Definition Queen_new (n : Z) : M Queen :=
  cs ← random_positions (Z.to_nat n) n;
  mret (update_valid_queens (mkQueen n cs 0)).

(** Modelled from the spec: boards are ordered by fitness alone. *)
Definition queen_lt (a b : Queen) : bool :=
  bool_decide (valid_queens a < valid_queens b).

(** [list.sort(reverse=True)]: a stable sort into descending order that
    compares with [<] only; equal elements keep their relative order. *)
Fixpoint insert_desc (x : Queen) (l : list Queen) : list Queen :=
  match l with
  | [] => [x]
  | y :: l' => if queen_lt x y then y :: insert_desc x l' else x :: y :: l'
  end.

Definition sort_reverse (l : list Queen) : list Queen :=
  foldr insert_desc [] l.

(** ** The operators of [ec.py] *)

(** One round of the gene-copy loop of [permutation] (lines 83-84). *)
Definition permutation_copy (board_1 board_2 : Queen)
    (children : Queen * Queen) (i : Z) : result (Queen * Queen) :=
  let '(child_1, child_2) := children in
  v2 ← py_getitem (board board_2) i;
  b1 ← py_setitem (board child_1) i v2;
  v1 ← py_getitem (board board_1) i;
  b2 ← py_setitem (board child_2) i v1;
  mret (set_board child_1 b1, set_board child_2 b2).

(** [permutation] once the pivot is known (lines 77-78 and 82-89). *)
Definition permutation_at (board_1 board_2 : Queen) (n pivot : Z)
  : result (Queen * Queen) :=
  let child_1 := deepcopy board_1 in
  let child_2 := deepcopy board_2 in
  children ← for_each (permutation_copy board_1 board_2)
                      (child_1, child_2) (py_range pivot n);
  mret (update_valid_queens children.1, update_valid_queens children.2).

(** [permutation(board_1, board_2, n)] *)
Definition permutation (board_1 board_2 : Queen) (n : Z) : M (Queen * Queen) :=
  pivot ← randrange n;
  lift (permutation_at board_1 board_2 n pivot).

(** [mutation] once row and column are known. *)
Definition mutation_at (b : Queen) (point col : Z) : result Queen :=
  bd ← py_setitem (board b) point col;
  mret (update_valid_queens (set_board b bd)).

(** [mutation(board, n)].  The Python function updates the object in place;
    every board of the population is a distinct object (fresh at
    initialisation, a deep copy when born from recombination), so returning
    the updated value loses nothing. *)
Definition mutation (b : Queen) (n : Z) : M Queen :=
  point ← randrange n;
  col ← randrange n;
  lift (mutation_at b point col).

(** ** The evolutionary loop *)

(** The constants of lines 134-136. *)
Record Config := mkConfig {
  population_size : Z;
  probability_of_mutation : Z;
  max_iterations : Z
}.

Definition default_config : Config := mkConfig 10 50 10000.

Record LoopState := mkLoopState {
  population : list Queen;
  current_iteration : Z
}.

(** The test of line 166 on the roll of line 165. *)
Definition mutation_triggers (cfg : Config) (random_number : Z) : bool :=
  bool_decide (random_number > 100 - probability_of_mutation cfg).

(** Body of the mutation pass (lines 165-167) for one board. *)
Definition maybe_mutate (cfg : Config) (n : Z) (b : Queen) : M Queen :=
  random_number ← randrange 100;
  if mutation_triggers cfg random_number then mutation b n else mret b.

(** Lines 158-161: recombine the first two boards and append the children. *)
Definition breed (n : Z) (pop : list Queen) : M (list Queen) :=
  parent_1 ← lift (py_getitem pop 0);
  parent_2 ← lift (py_getitem pop 1);
  children ← permutation parent_1 parent_2 n;
  mret ((pop ++ [children.1]) ++ [children.2]).

(** Lines 158-170: the population before it is sliced. *)
Definition grow (cfg : Config) (n : Z) (pop : list Queen) : M (list Queen) :=
  pop ← breed n pop;
  pop ← for_each_M (maybe_mutate cfg n) pop;
  mret (sort_reverse pop).

(** Lines 155-172: one iteration of the [while] loop. *)
Definition loop_body (cfg : Config) (n : Z) (st : LoopState) : M LoopState :=
  let iteration := current_iteration st + 1 in
  pop ← grow cfg n (population st);
  mret (mkLoopState (py_slice_to pop (population_size cfg)) iteration).

(** The guard of line 153. *)
Definition loop_guard (cfg : Config) (n : Z) (st : LoopState) : result bool :=
  best ← py_getitem (population st) 0;
  mret (bool_decide (valid_queens best ≠ n)
        && bool_decide (current_iteration st < max_iterations cfg)).

(** The [while] loop of lines 153-172; [fuel] bounds the number of
    iterations the model is willing to run. *)
Fixpoint while_loop (fuel : nat) (cfg : Config) (n : Z) (st : LoopState)
  : M LoopState :=
  continue ← lift (loop_guard cfg n st);
  if continue : bool then
    match fuel with
    | O => out_of_fuel
    | S fuel' => st' ← loop_body cfg n st; while_loop fuel' cfg n st'
    end
  else mret st.

(** Lines 142-147: the initial population, best board first. *)
Definition init_population (cfg : Config) (n : Z) : M (list Queen) :=
  pop ← for_each_M (λ _, Queen_new n) (py_range 0 (population_size cfg));
  mret (sort_reverse pop).

(** Lines 142-172. *)
Definition evolve (cfg : Config) (n : Z) : M LoopState :=
  pop ← init_population cfg n;
  while_loop (Z.to_nat (max_iterations cfg)) cfg n (mkLoopState pop 0).

(** ** The program *)

Definition tab : string := String "009"%char EmptyString.

Definition usage_message : string :=
  "Takes one or two argument(s): the board size and random seed.".
Definition size_message : string := "Board size must be 4 or greater!".

(** Modelled from the spec: [Queen.print_board] of [queen.py] prints one
    line of cells per row, the queen's cell marked, each followed by a line
    of dashes; the sample output in the docstring of [ec.py] fixes the
    layout and the empty line that ends it. *)
Definition board_row (n c : Z) : string :=
  foldr (λ j s, (if bool_decide (j = c) then "| Q " else "|   ") +:+ s)
        "|" (py_range 0 n).

Definition board_rule (n : Z) : string :=
  foldr (λ _ s, "----" +:+ s) "-" (py_range 0 n).

Definition print_board (q : Queen) : list string :=
  flat_map (λ c, [board_row (size q) c; board_rule (size q)]) (board q)
  ++ [EmptyString].

(** How a run of the program ends, with the lines printed so far. *)
Inductive Outcome :=
| Quit (stdout : list string)
| Uncaught (e : exn) (stdout : list string)
| Diverged
| Reported (stdout : list string) (final : LoopState).

(** [print_info] (lines 105-108). *)
Definition print_info (random_seed : Z) (st : LoopState) : Outcome :=
  let head := ["Iteration: " +:+ tab +:+ pretty (current_iteration st);
               "Random Seed:" +:+ tab +:+ pretty random_seed] in
  match py_getitem (population st) 0 with
  | Ok best =>
      Reported (head ++ print_board best
                ++ ["Valid queens: " +:+ tab +:+ pretty (valid_queens best)]) st
  | Raise e => Uncaught e head
  | OutOfFuel => Diverged
  end.

Section Program.
(** [int(s)] on a command-line argument: [None] stands for the
    [ValueError] of a string that is no integer literal. *)
Variable py_int : string → option Z.
(** [random.seed(s)]: the raw draws the generator delivers afterwards. *)
Variable seeded : Z → nat → Z.
Variable cfg : Config.

(** Lines 125-129; [now] is [int(time())]. *)
Definition read_seed (argv : list string) (now : Z) : result Z :=
  if bool_decide (length argv = 3%nat) then
    arg ← py_getitem argv 2;
    match py_int arg with
    | Some s => Ok s
    | None => Raise ValueError
    end
  else Ok now.

(** The module body, lines 111-176.  The interrupt handler of line 139
    is asynchronous and stays outside the model. *)
Definition main (argv : list string) (now : Z) : Outcome :=
  if bool_decide (length argv ≠ 2%nat) && bool_decide (length argv ≠ 3%nat)
  then Quit [usage_message]
  else
    match py_getitem argv 1 ≫= (λ arg,
            match py_int arg with
            | Some n => Ok n
            | None => Raise ValueError
            end) with
    | Ok n =>
        if bool_decide (n < 4) then Quit [size_message]
        else
          match read_seed argv now with
          | Ok random_seed =>
              match evolve cfg n (mkRng (seeded random_seed) 0) with
              | Ok (st, _) => print_info random_seed st
              | Raise e => Uncaught e []
              | OutOfFuel => Diverged
              end
          | Raise e => Uncaught e []
          | OutOfFuel => Diverged
          end
    | Raise e => Uncaught e []
    | OutOfFuel => Diverged
    end.
End Program.

(** The population a run has built, if it got that far. *)
Definition population_of (o : Outcome) : option (list Queen) :=
  match o with
  | Reported _ st => Some (population st)
  | _ => None
  end.

(** A decimal reader for the command line: an optional sign followed by
    digits.  It stands in for [int] on the examples below. *)
Fixpoint read_digits (acc : Z) (s : string) : option Z :=
  match s with
  | EmptyString => Some acc
  | String c s' =>
      let d := Z.of_nat (nat_of_ascii c) - 48 in
      if bool_decide (0 ≤ d ≤ 9) then read_digits (10 * acc + d) s' else None
  end.

Definition read_int (s : string) : option Z :=
  match s with
  | EmptyString => None
  | String "-"%char EmptyString | String "+"%char EmptyString => None
  | String "-"%char s' => Z.opp <$> read_digits 0 s'
  | String "+"%char s' => read_digits 0 s'
  | _ => read_digits 0 s
  end.

(** A toy generator for the examples: a linear congruential sequence. *)
Definition lcg (seed : Z) (i : nat) : Z :=
  Nat.iter (S i) (λ x, (1103515245 * x + 12345) `mod` 2147483648) seed `div` 65536.

(** * Vocabulary of the properties *)

(** The genes of [a] below row [p] followed by the genes of [b] from [p] on. *)
Definition splice (p : nat) (a b : list Z) : list Z := take p a ++ drop p b.

(** A board of size 4 with the given positions and its fitness. *)
Definition board4 (cs : list Z) : Queen := update_valid_queens (mkQueen 4 cs 0).

(** A board for size [n]: [n] positions, each a column of [[0, n)]. *)
Definition well_formed (n : Z) (q : Queen) : Prop :=
  Z.of_nat (length (board q)) = n ∧ Forall (λ c, 0 ≤ c < n) (board q).

(** No two queens of different rows share a column or a diagonal. *)
Definition peaceful (b : list Z) : Prop :=
  ∀ (r1 r2 : nat) (c1 c2 : Z),
    r1 ≠ r2 → b !! r1 = Some c1 → b !! r2 = Some c2 →
    ¬ (c1 = c2 ∨ Z.abs (Z.of_nat r1 - Z.of_nat r2) = Z.abs (c1 - c2)).

(** The rolls of [randrange(100)] on which line 166 lets the mutation run. *)
Definition triggering_rolls (cfg : Config) : list Z :=
  List.filter (mutation_triggers cfg) (py_range 0 100).

(** [a] may stand before [b] in a population sorted best first. *)
Definition fitter (a b : Queen) : Prop := valid_queens b ≤ valid_queens a.

(** Sorted in descending order of fitness. *)
Definition descending (l : list Queen) : Prop := StronglySorted fitter l.

(** What the mutation pass may do to one board. *)
Definition kept_or_mutated (n : Z) (b b' : Queen) : Prop :=
  b' = b ∨ ∃ g g', mutation b n g = Ok (b', g').

(** A small population for the examples. *)
Definition sample_population : list Queen :=
  [board4 [1; 3; 0; 0]; board4 [0; 2; 0; 2]; board4 [3; 3; 3; 3]].

(** The population at rest: [population_size] well-formed boards, best
    first. *)
Definition settled (cfg : Config) (n : Z) (pop : list Queen) : Prop :=
  Z.of_nat (length pop) = population_size cfg ∧
  Forall (well_formed n) pop ∧ descending pop.

(** The stored fitness is the fitness of the positions. *)
Definition fresh (q : Queen) : Prop :=
  valid_queens q = count_valid_queens (board q).

(** Crossover of the rows below [n] only: the genes of [a] below row [p],
    those of [b] in rows [p] to [n - 1], and the genes of [a] from [n] on. *)
Definition splice_to (n p : nat) (a b : list Z) : list Z :=
  take p a ++ take (n - p) (drop p b) ++ drop n a.

(** The number of random draws between two generator states. *)
Definition drawn (g g' : Rng) : Z := Z.of_nat (cursor g') - Z.of_nat (cursor g).

(** * Properties *)

(** ** Running monadic code *)

Lemma M_bind_Ok {A B} (m : M A) (k : A → M B) g a g' :
  m g = Ok (a, g') → (m ≫= k) g = k a g'.
Proof. intros E. unfold mbind, M_bind. by rewrite E. Qed.

Lemma M_bind_inv {A B} (m : M A) (k : A → M B) g r :
  (m ≫= k) g = Ok r → ∃ a g', m g = Ok (a, g') ∧ k a g' = Ok r.
Proof.
  unfold mbind, M_bind. destruct (m g) as [[a g']| |]; try discriminate.
  eauto.
Qed.

Lemma lift_Ok {A} (r : result A) a g : r = Ok a → lift r g = Ok (a, g).
Proof. by intros ->. Qed.

Lemma randrange_Ok n g :
  0 < n → randrange n g = Ok (draws g (cursor g) `mod` n, advance g).
Proof. intros Hn. unfold randrange. by rewrite decide_True. Qed.

Lemma randrange_range n g r g' :
  randrange n g = Ok (r, g') → 0 ≤ r < n ∧ g' = advance g.
Proof.
  unfold randrange. case_decide; [|discriminate].
  intros [= <- <-]. split; [|done]. apply Z.mod_pos_bound. lia.
Qed.

(** ** Python list access inside the bounds *)

Lemma py_index_in {A} (l : list A) (i : Z) :
  0 ≤ i < Z.of_nat (length l) → py_index l i = Some (Z.to_nat i).
Proof.
  intros Hi. unfold py_index. cbv zeta.
  destruct (decide (i < 0)) as [Hneg|_]; [lia|].
  by rewrite decide_True.
Qed.

Lemma py_getitem_nat {A} (l : list A) (i : nat) x :
  l !! i = Some x → py_getitem l (Z.of_nat i) = Ok x.
Proof.
  intros Hx. unfold py_getitem.
  rewrite py_index_in by (apply lookup_lt_Some in Hx; lia).
  by rewrite Nat2Z.id, Hx.
Qed.

Lemma py_setitem_nat {A} (l : list A) (i : nat) v :
  (i < length l)%nat → py_setitem l (Z.of_nat i) v = Ok (<[i:=v]> l).
Proof.
  intros Hi. unfold py_setitem.
  rewrite py_index_in by lia. by rewrite Nat2Z.id.
Qed.

(** ** Recombination *)

Lemma set_board_set_board q b b' : set_board (set_board q b) b' = set_board q b'.
Proof. done. Qed.

Lemma board_set_board q b : board (set_board q b) = b.
Proof. done. Qed.

(** The gene-copy loop started at row [p] with [k] rows to go: both children
    keep their first [p] genes and take the rest from the other parent. *)
Lemma copy_loop (A B : Queen) (k : nat) : ∀ (p : nat) (c1 c2 : Queen),
  length (board A) = (p + k)%nat → length (board B) = (p + k)%nat →
  length (board c1) = (p + k)%nat → length (board c2) = (p + k)%nat →
  for_each (permutation_copy A B) (c1, c2) (seqZ (Z.of_nat p) (Z.of_nat k))
  = Ok (set_board c1 (take p (board c1) ++ drop p (board B)),
        set_board c2 (take p (board c2) ++ drop p (board A))).
Proof.
  induction k as [|k IH]; intros p c1 c2 HA HB H1 H2.
  - rewrite seqZ_nil by lia. simpl.
    rewrite !drop_ge, !take_ge, !app_nil_r by lia.
    by destruct c1, c2.
  - rewrite seqZ_cons by lia. simpl.
    destruct (lookup_lt_is_Some_2 (board A) p) as [a Ha]; [lia|].
    destruct (lookup_lt_is_Some_2 (board B) p) as [b Hb]; [lia|].
    rewrite (py_getitem_nat _ _ _ Hb). simpl.
    rewrite py_setitem_nat by lia. simpl.
    rewrite (py_getitem_nat _ _ _ Ha). simpl.
    rewrite py_setitem_nat by lia. simpl.
    replace (Z.succ (Z.of_nat p)) with (Z.of_nat (S p)) by lia.
    replace (Z.pred (Z.of_nat (S k))) with (Z.of_nat k) by lia.
    rewrite IH; rewrite ?board_set_board, ?length_insert; try lia.
    rewrite !set_board_set_board.
    rewrite (drop_S _ _ _ Ha), (drop_S _ _ _ Hb).
    rewrite (take_S_r _ _ b) by (apply list_lookup_insert_eq; lia).
    rewrite (take_S_r _ _ a) by (apply list_lookup_insert_eq; lia).
    rewrite !take_insert_ge by lia.
    by rewrite <- !app_assoc.
Qed.

Lemma splice_lookup (p : nat) (a b : list Z) (i : nat) :
  length a = length b → (p ≤ length a)%nat →
  splice p a b !! i = if decide (i < p)%nat then a !! i else b !! i.
Proof.
  intros Hlen Hp. unfold splice. case_decide.
  - rewrite lookup_app_l by (rewrite length_take; lia).
    by rewrite lookup_take_lt.
  - rewrite lookup_app_r by (rewrite length_take; lia).
    rewrite length_take, lookup_drop. f_equal. lia.
Qed.

Lemma length_splice (p : nat) (a b : list Z) :
  length a = length b → length (splice p a b) = length a.
Proof.
  intros Hlen. unfold splice.
  rewrite length_app, length_take, length_drop. lia.
Qed.

Lemma permutation_at_Ok (A B : Queen) (p : nat) :
  length (board A) = length (board B) → (p ≤ length (board A))%nat →
  permutation_at A B (Z.of_nat (length (board A))) (Z.of_nat p)
  = Ok (update_valid_queens (set_board A (splice p (board A) (board B))),
        update_valid_queens (set_board B (splice p (board B) (board A)))).
Proof.
  intros Hlen Hp. unfold permutation_at, py_range, deepcopy.
  replace (Z.of_nat (length (board A)) - Z.of_nat p)
    with (Z.of_nat (length (board A) - p)) by lia.
  rewrite copy_loop by lia. done.
Qed.

(** C2.  For parents [A] and [B] with [n] genes each and every pivot [p]
    with [0 ≤ p ≤ n], recombination returns two children; the first has the
    genes of [A] below [p] and those of [B] from [p] on, the second is the
    complement.  At [p = 0] the children carry the positions of [B] and [A],
    at [p = n] those of [A] and [B].  The pivot of [permutation] is the
    number it draws from the random stream, [draws g (cursor g) `mod` n];
    it lies in [[0, n)], and the children [permutation] returns are split at
    exactly that pivot. *)
Theorem permutation_completeness (A B : Queen) (n : Z) :
  Z.of_nat (length (board A)) = n → Z.of_nat (length (board B)) = n →
  (∀ p, 0 ≤ p ≤ n →
     ∃ child_1 child_2,
       permutation_at A B n p = Ok (child_1, child_2) ∧
       (∀ i : nat, Z.of_nat i < p →
          board child_1 !! i = board A !! i ∧ board child_2 !! i = board B !! i) ∧
       (∀ i : nat, p ≤ Z.of_nat i →
          board child_1 !! i = board B !! i ∧ board child_2 !! i = board A !! i) ∧
       (p = 0 → board child_1 = board B ∧ board child_2 = board A) ∧
       (p = n → board child_1 = board A ∧ board child_2 = board B)) ∧
  (∀ g, 0 < n →
     0 ≤ draws g (cursor g) `mod` n < n ∧
     permutation A B n g
     = lift (permutation_at A B n (draws g (cursor g) `mod` n)) (advance g) ∧
     ∃ child_1 child_2,
       permutation A B n g = Ok ((child_1, child_2), advance g) ∧
       (∀ i : nat, Z.of_nat i < draws g (cursor g) `mod` n →
          board child_1 !! i = board A !! i ∧ board child_2 !! i = board B !! i) ∧
       (∀ i : nat, draws g (cursor g) `mod` n ≤ Z.of_nat i →
          board child_1 !! i = board B !! i ∧ board child_2 !! i = board A !! i)).
Proof.
  intros HA HB.
  assert (∀ p, 0 ≤ p ≤ n →
     ∃ child_1 child_2,
       permutation_at A B n p = Ok (child_1, child_2) ∧
       (∀ i : nat, Z.of_nat i < p →
          board child_1 !! i = board A !! i ∧ board child_2 !! i = board B !! i) ∧
       (∀ i : nat, p ≤ Z.of_nat i →
          board child_1 !! i = board B !! i ∧ board child_2 !! i = board A !! i) ∧
       (p = 0 → board child_1 = board B ∧ board child_2 = board A) ∧
       (p = n → board child_1 = board A ∧ board child_2 = board B)) as Hat.
  { intros p Hp.
    assert (Hlen : length (board A) = length (board B)) by lia.
    assert (Hp' : (Z.to_nat p ≤ length (board A))%nat) by lia.
    pose proof (permutation_at_Ok A B (Z.to_nat p) Hlen Hp') as E.
    rewrite HA, Z2Nat.id in E by lia.
    eexists _, _. split; [exact E|].
    simpl. repeat split.
    + rewrite splice_lookup by lia. rewrite decide_True by lia. done.
    + rewrite splice_lookup by lia. rewrite decide_True by lia. done.
    + rewrite splice_lookup by lia. rewrite decide_False by lia. done.
    + rewrite splice_lookup by lia. rewrite decide_False by lia. done.
    + subst p. unfold splice. simpl. by rewrite drop_0.
    + subst p. unfold splice. simpl. by rewrite drop_0.
    + unfold splice. rewrite take_ge, drop_ge by lia. by rewrite app_nil_r.
    + unfold splice. rewrite take_ge, drop_ge by lia. by rewrite app_nil_r. }
  split; [exact Hat|].
  intros g Hn.
  pose proof (Z.mod_pos_bound (draws g (cursor g)) n Hn) as Hpivot.
  assert (permutation A B n g
          = lift (permutation_at A B n (draws g (cursor g) `mod` n)) (advance g))
    as Edraw.
  { unfold permutation. by rewrite (M_bind_Ok _ _ _ _ _ (randrange_Ok n g Hn)). }
  split; [exact Hpivot|]. split; [exact Edraw|].
  destruct (Hat (draws g (cursor g) `mod` n) ltac:(lia))
    as (c1 & c2 & E & Hbelow & Habove & _).
  exists c1, c2. split; [|split; [exact Hbelow|exact Habove]].
  rewrite Edraw. by apply lift_Ok.
Qed.

Lemma permutation_completeness_witness :
  (∃ child_1 child_2,
     permutation_at (board4 [0; 1; 2; 3]) (board4 [3; 2; 1; 0]) 4 1
       = Ok (child_1, child_2) ∧
     board child_1 = [0; 2; 1; 0] ∧ board child_2 = [3; 1; 2; 3]) ∧
  permutation (board4 [0; 1; 2; 3]) (board4 [3; 2; 1; 0]) 4 (mkRng (λ _, 6) 0)
  = lift (permutation_at (board4 [0; 1; 2; 3]) (board4 [3; 2; 1; 0]) 4 2)
         (mkRng (λ _, 6) 1).
Proof.
  destruct (permutation_completeness (board4 [0; 1; 2; 3]) (board4 [3; 2; 1; 0]) 4
              eq_refl eq_refl) as [H Hdraw].
  split.
  - destruct (H 1 ltac:(lia)) as (c1 & c2 & E & _).
    exists c1, c2. split; [exact E|].
    vm_compute in E. by injection E as <- <-.
  - exact (proj1 (proj2 (Hdraw (mkRng (λ _, 6) 0) ltac:(lia)))).
Defined.

(** ** Mutation *)

Lemma mutation_Ok (b : Queen) (n : Z) (g : Rng) :
  0 < n → Z.of_nat (length (board b)) = n →
  let point := draws g (cursor g) `mod` n in
  let col := draws g (S (cursor g)) `mod` n in
  mutation b n g
  = Ok (update_valid_queens (set_board b (<[Z.to_nat point:=col]> (board b))),
        advance (advance g)).
Proof.
  intros Hn Hlen point col. unfold mutation.
  rewrite (M_bind_Ok _ _ _ _ _ (randrange_Ok n g Hn)).
  rewrite (M_bind_Ok _ _ _ _ _ (randrange_Ok n (advance g) Hn)).
  fold point. simpl. fold col.
  assert (0 ≤ point < n) by (by apply Z.mod_pos_bound).
  apply lift_Ok. unfold mutation_at.
  rewrite <- (Z2Nat.id point) at 1 by lia.
  rewrite py_setitem_nat by lia. done.
Qed.

Lemma lift_inv {A} (r : result A) g a g' :
  lift r g = Ok (a, g') → r = Ok a ∧ g' = g.
Proof. destruct r; simpl; [|done..]. by intros [= -> ->]. Qed.

Lemma py_setitem_inv {A} (l : list A) (i : Z) v l' :
  0 ≤ i → py_setitem l i v = Ok l' →
  (Z.to_nat i < length l)%nat ∧ l' = <[Z.to_nat i:=v]> l.
Proof.
  intros Hi. unfold py_setitem, py_index. cbv zeta.
  destruct (decide (i < 0)) as [Hneg|_]; [lia|].
  case_decide; [|done]. intros [= <-]. split; [lia|done].
Qed.

Lemma randrange_inv n g r g' :
  randrange n g = Ok (r, g') →
  0 < n ∧ r = draws g (cursor g) `mod` n ∧ g' = advance g.
Proof.
  unfold randrange. case_decide; [|discriminate]. by intros [= <- <-].
Qed.

(** Whenever [mutation] returns, the board it leaves is the board it was
    given with the drawn row, an existing row, set to the drawn column. *)
Lemma mutation_inv (b : Queen) (n : Z) g b' g' :
  mutation b n g = Ok (b', g') →
  0 < n ∧
  (Z.to_nat (draws g (cursor g) `mod` n) < length (board b))%nat ∧
  board b' = <[Z.to_nat (draws g (cursor g) `mod` n)
               := draws g (S (cursor g)) `mod` n]> (board b) ∧
  g' = advance (advance g).
Proof.
  unfold mutation. intros E.
  apply M_bind_inv in E as (point & g1 & Ep & E).
  apply M_bind_inv in E as (col & g2 & Ec & E).
  apply randrange_inv in Ep as (Hn & -> & ->).
  apply randrange_inv in Ec as (_ & -> & ->).
  pose proof (Z.mod_pos_bound (draws g (cursor g)) n Hn) as Hp.
  apply lift_inv in E as [E ->]. unfold mutation_at in E.
  destruct (py_setitem (board b) _ _) as [bd| |] eqn:Eset; [|done..].
  simpl in E. injection E as <-.
  apply py_setitem_inv in Eset as [Hlt ->]; [|lia].
  done.
Qed.

(** C6.  Whenever [mutation] returns, the board it leaves has the length
    of the board it was given and agrees with it at every position except
    the row drawn, [draws g (cursor g) `mod` n].  On a board with [n > 0]
    positions [mutation] does return, and the drawn row then holds the
    column drawn, [draws g (S (cursor g)) `mod` n].  The drawn row may keep
    its value as well: when the columns lie in [[0, n)], for every row some
    random stream draws that row and leaves all positions as they were. *)
Theorem mutation_locality (b : Queen) (n : Z) :
  (∀ g b' g', mutation b n g = Ok (b', g') →
     length (board b') = length (board b) ∧
     ∀ i : nat, i ≠ Z.to_nat (draws g (cursor g) `mod` n) →
                board b' !! i = board b !! i) ∧
  (0 < n → Z.of_nat (length (board b)) = n →
   (∀ g, ∃ b' : Queen,
      0 ≤ draws g (cursor g) `mod` n < n ∧
      0 ≤ draws g (S (cursor g)) `mod` n < n ∧
      mutation b n g = Ok (b', advance (advance g)) ∧
      length (board b') = length (board b) ∧
      board b' !! Z.to_nat (draws g (cursor g) `mod` n)
        = Some (draws g (S (cursor g)) `mod` n) ∧
      ∀ i : nat, i ≠ Z.to_nat (draws g (cursor g) `mod` n) →
                 board b' !! i = board b !! i) ∧
   (Forall (λ c, 0 ≤ c < n) (board b) →
    ∀ row : nat, Z.of_nat row < n →
      ∃ g b' g',
        draws g (cursor g) `mod` n = Z.of_nat row ∧
        mutation b n g = Ok (b', g') ∧ board b' = board b)).
Proof.
  split.
  { intros g b' g' E.
    apply mutation_inv in E as (_ & _ & -> & _).
    split; [by rewrite length_insert|].
    intros i Hi. by apply list_lookup_insert_ne. }
  intros Hn Hlen. split.
  - intros g.
    pose proof (Z.mod_pos_bound (draws g (cursor g)) n Hn) as Hp.
    pose proof (Z.mod_pos_bound (draws g (S (cursor g))) n Hn) as Hc.
    eexists. split; [exact Hp|]. split; [exact Hc|].
    split; [by apply mutation_Ok|].
    simpl. split; [by rewrite length_insert|]. split.
    + apply list_lookup_insert_eq. lia.
    + intros i Hi. by apply list_lookup_insert_ne.
  - intros Hcols row Hrow.
    destruct (lookup_lt_is_Some_2 (board b) row) as [c Hc]; [lia|].
    assert (0 ≤ c < n) as Hr.
    { eapply (Forall_lookup_1 _ _ _ _ Hcols Hc). }
    exists (mkRng (λ i, match i with O => Z.of_nat row | S _ => c end) 0).
    eexists _, _. simpl. split; [apply Z.mod_small; lia|].
    split; [by apply mutation_Ok|].
    simpl. rewrite !Z.mod_small by lia. rewrite Nat2Z.id.
    by apply list_insert_id.
Qed.

Lemma mutation_locality_witness :
  ∃ b' : Queen,
    mutation (board4 [1; 3; 0; 2]) 4 (mkRng (λ i, Z.of_nat i + 6) 0)
      = Ok (b', mkRng (λ i, Z.of_nat i + 6) 2) ∧
    board b' !! 2%nat = Some 3 ∧
    ∀ i : nat, i ≠ 2%nat → board b' !! i = [1; 3; 0; 2] !! i.
Proof.
  destruct (proj2 (mutation_locality (board4 [1; 3; 0; 2]) 4) ltac:(lia) eq_refl)
    as [H _].
  destruct (H (mkRng (λ i, Z.of_nat i + 6) 0))
    as (b' & _ & _ & E & _ & Hrow & Hi).
  exists b'. split; [exact E|]. split; [exact Hrow | exact Hi].
Defined.

(** ** Well-formedness *)

Lemma well_formed_update n q : well_formed n q → well_formed n (update_valid_queens q).
Proof. done. Qed.

Lemma well_formed_splice n p A B :
  well_formed n A → well_formed n B →
  well_formed n (set_board A (splice p (board A) (board B))).
Proof.
  intros (HlA & HcA) (HlB & HcB). split; simpl.
  - rewrite length_splice by lia. done.
  - unfold splice. apply Forall_app. split.
    + by apply Forall_take.
    + by apply Forall_drop.
Qed.

Lemma permutation_well_formed n A B g :
  0 < n → well_formed n A → well_formed n B →
  ∃ child_1 child_2,
    permutation A B n g = Ok ((child_1, child_2), advance g) ∧
    well_formed n child_1 ∧ well_formed n child_2.
Proof.
  intros Hn HA HB.
  pose proof (Z.mod_pos_bound (draws g (cursor g)) n Hn) as Hp.
  destruct HA as (HlA & HcA), HB as (HlB & HcB).
  eexists _, _. split.
  - unfold permutation.
    rewrite (M_bind_Ok _ _ _ _ _ (randrange_Ok n g Hn)).
    apply lift_Ok. rewrite <- HlA at 1.
    rewrite <- (Z2Nat.id (_ `mod` n)) by lia.
    apply permutation_at_Ok; lia.
  - split; apply well_formed_update, well_formed_splice; done.
Qed.

Lemma mutation_well_formed n b g :
  0 < n → well_formed n b →
  ∃ b', mutation b n g = Ok (b', advance (advance g)) ∧ well_formed n b'.
Proof.
  intros Hn (Hl & Hc). eexists. split; [by apply mutation_Ok|].
  apply well_formed_update. split; simpl.
  - by rewrite length_insert.
  - apply Forall_insert; [done|]. by apply Z.mod_pos_bound.
Qed.

(** C7.  Recombination of two well-formed boards returns two well-formed
    boards, and mutation of a well-formed board returns a well-formed board:
    [n] positions, each in [[0, n)]. *)
Theorem operators_preserve_well_formed (n : Z) (A B : Queen) :
  0 < n → well_formed n A → well_formed n B →
  (∀ g, ∃ child_1 child_2 g',
     permutation A B n g = Ok ((child_1, child_2), g') ∧
     well_formed n child_1 ∧ well_formed n child_2) ∧
  (∀ g, ∃ A' g', mutation A n g = Ok (A', g') ∧ well_formed n A').
Proof.
  intros Hn HA HB. split; intros g.
  - destruct (permutation_well_formed n A B g Hn HA HB) as (c1 & c2 & E & H1 & H2).
    by exists c1, c2, (advance g).
  - destruct (mutation_well_formed n A g Hn HA) as (A' & E & H').
    by exists A', (advance (advance g)).
Qed.

Lemma board4_well_formed cs :
  length cs = 4%nat → Forall (λ c, 0 ≤ c < 4) cs → well_formed 4 (board4 cs).
Proof. intros Hl Hc. split; simpl; [lia|done]. Qed.

Lemma operators_preserve_well_formed_witness :
  ∃ A' g', mutation (board4 [1; 3; 0; 2]) 4 (mkRng (lcg 7) 0) = Ok (A', g')
           ∧ well_formed 4 A'.
Proof.
  refine (proj2 (operators_preserve_well_formed 4
                   (board4 [1; 3; 0; 2]) (board4 [0; 0; 3; 3]) _ _ _) _).
  - lia.
  - apply board4_well_formed; [done|]. repeat constructor; lia.
  - apply board4_well_formed; [done|]. repeat constructor; lia.
Defined.

(** ** Fitness *)

Lemma filter_length_full {X} (f : X → bool) (l : list X) :
  length (List.filter f l) = length l ↔ Forall (λ x, f x = true) l.
Proof.
  induction l as [|x l IH]; simpl.
  - split; [constructor|done].
  - pose proof (List.filter_length_le f l) as Hle.
    destruct (f x) eqn:Hx; simpl.
    + rewrite Forall_cons. split.
      * intros [= E]. split; [done|]. by apply IH.
      * intros [_ Hl]. f_equal. by apply IH.
    + split; [lia|]. intros Hl. apply Forall_cons in Hl as [Hx' _]. congruence.
Qed.

Lemma elem_of_queens (b : list Z) (q : Z * Z) :
  q ∈ queens b ↔ ∃ r : nat, q.1 = Z.of_nat r ∧ b !! r = Some q.2.
Proof.
  unfold queens. rewrite elem_of_lookup_imap. split.
  - intros (r & c & -> & Hc). by exists r.
  - intros (r & Hr & Hc). exists r, q.2. split; [|done].
    destruct q; simpl in *. by subst.
Qed.

Lemma length_queens (b : list Z) : length (queens b) = length b.
Proof. apply length_imap. Qed.

Lemma attacks_spec r1 c1 r2 c2 :
  attacks r1 c1 r2 c2 = true ↔ c1 = c2 ∨ Z.abs (r1 - r2) = Z.abs (c1 - c2).
Proof.
  unfold attacks. rewrite orb_true_iff, !bool_decide_eq_true. done.
Qed.

Lemma is_valid_spec (b : list Z) (r : nat) (c : Z) :
  is_valid (queens b) (Z.of_nat r, c) = true ↔
  ∀ (r' : nat) (c' : Z), r' ≠ r → b !! r' = Some c' →
    ¬ (c = c' ∨ Z.abs (Z.of_nat r - Z.of_nat r') = Z.abs (c - c')).
Proof.
  unfold is_valid. rewrite forallb_forall. simpl. split.
  - intros H r' c' Hne Hc' Hatt.
    specialize (H (Z.of_nat r', c')). simpl in H.
    apply attacks_spec in Hatt. rewrite Hatt in H. simpl in H.
    rewrite orb_false_r, bool_decide_eq_true in H.
    assert (Z.of_nat r' = Z.of_nat r); [|lia].
    apply H, list_elem_of_In, elem_of_queens. by exists r'.
  - intros H [r0 c'] Hin. simpl.
    apply list_elem_of_In, elem_of_queens in Hin as (r' & Hr & Hc').
    simpl in Hr, Hc'. subst r0.
    apply orb_true_iff. destruct (decide (r' = r)) as [->|Hne].
    + left. by apply bool_decide_eq_true.
    + right. apply negb_true_iff, not_true_is_false.
      rewrite attacks_spec. by apply H.
Qed.

Lemma all_valid_peaceful (b : list Z) :
  Forall (λ q, is_valid (queens b) q = true) (queens b) ↔ peaceful b.
Proof.
  rewrite Forall_forall. split.
  - intros H r1 r2 c1 c2 Hne H1 H2.
    assert (Hq : (Z.of_nat r1, c1) ∈ queens b) by (apply elem_of_queens; by exists r1).
    apply H in Hq. rewrite is_valid_spec in Hq. by apply (Hq r2 c2).
  - intros H [r0 c] (r & Hr & Hc)%elem_of_queens. simpl in Hr, Hc. subst r0.
    apply is_valid_spec. intros r' c' Hne Hc'. by apply (H r r' c c').
Qed.

Lemma count_valid_queens_bounds (b : list Z) :
  0 ≤ count_valid_queens b ≤ Z.of_nat (length b).
Proof.
  unfold count_valid_queens.
  pose proof (List.filter_length_le (is_valid (queens b)) (queens b)) as Hle.
  rewrite length_queens in Hle. lia.
Qed.

Lemma count_valid_queens_full (b : list Z) :
  count_valid_queens b = Z.of_nat (length b) ↔ peaceful b.
Proof.
  rewrite <- all_valid_peaceful, <- filter_length_full, length_queens.
  unfold count_valid_queens. lia.
Qed.

(** C8.  The fitness recomputed for a board of [n] rows lies between 0 and
    [n], and it equals [n] iff no two queens of different rows share a
    column or a diagonal. *)
Theorem fitness_bounds (q : Queen) (n : Z) :
  Z.of_nat (length (board q)) = n →
  0 ≤ valid_queens (update_valid_queens q) ≤ n ∧
  (valid_queens (update_valid_queens q) = n ↔ peaceful (board q)).
Proof.
  intros <-. simpl. split.
  - apply count_valid_queens_bounds.
  - apply count_valid_queens_full.
Qed.

Lemma fitness_bounds_witness :
  0 ≤ valid_queens (board4 [1; 3; 0; 2]) ≤ 4 ∧
  (valid_queens (board4 [1; 3; 0; 2]) = 4 ↔ peaceful [1; 3; 0; 2]).
Proof. exact (fitness_bounds (mkQueen 4 [1; 3; 0; 2] 0) 4 eq_refl). Defined.

(** The sample of the spec: the board [1; 3; 0; 2] has fitness 4. *)
Example fitness_sample : valid_queens (board4 [1; 3; 0; 2]) = 4.
Proof. reflexivity. Qed.

(** ** The mutation roll *)

Lemma filter_none {X} (f : X → bool) (l : list X) :
  Forall (λ x, f x = false) l → List.filter f l = [].
Proof.
  induction 1 as [|x l Hx _ IH]; simpl; [done|]. by rewrite Hx.
Qed.

Lemma filter_all {X} (f : X → bool) (l : list X) :
  Forall (λ x, f x = true) l → List.filter f l = l.
Proof.
  induction 1 as [|x l Hx _ IH]; simpl; [done|]. by rewrite Hx, IH.
Qed.

Lemma triggering_rolls_range (cfg : Config) :
  1 ≤ probability_of_mutation cfg ≤ 100 →
  triggering_rolls cfg
  = seqZ (101 - probability_of_mutation cfg) (probability_of_mutation cfg - 1).
Proof.
  intros Hp. unfold triggering_rolls, py_range.
  set (p := probability_of_mutation cfg) in *.
  replace (100 - 0) with ((101 - p) + (p - 1)) by lia.
  rewrite seqZ_app by lia. rewrite List.filter_app.
  rewrite filter_none, filter_all; [done| |].
  - apply Forall_seqZ. intros r Hr. unfold mutation_triggers. fold p.
    apply bool_decide_eq_true. lia.
  - apply Forall_seqZ. intros r Hr. unfold mutation_triggers. fold p.
    apply bool_decide_eq_false. lia.
Qed.

(** C1, as the code has it.  For a percentage [p] with [1 ≤ p ≤ 100], the
    test [random_number > 100 - p] holds on [p - 1] of the 100 rolls of
    [randrange(100)], one fewer than the [p] rolls a probability of [p/100]
    needs. *)
Theorem mutation_roll_count (cfg : Config) :
  1 ≤ probability_of_mutation cfg ≤ 100 →
  Z.of_nat (length (triggering_rolls cfg)) = probability_of_mutation cfg - 1.
Proof.
  intros Hp. rewrite triggering_rolls_range by done.
  rewrite length_seqZ. lia.
Qed.

Lemma mutation_roll_count_witness :
  Z.of_nat (length (triggering_rolls default_config)) = 49.
Proof. apply (mutation_roll_count default_config). simpl. lia. Defined.

(** ** Sorting *)

Lemma insert_desc_Permutation x l : insert_desc x l ≡ₚ x :: l.
Proof.
  induction l as [|y l IH]; simpl; [done|].
  destruct (queen_lt x y); [|done].
  rewrite IH. apply Permutation_swap.
Qed.

Lemma sort_reverse_Permutation l : sort_reverse l ≡ₚ l.
Proof.
  induction l as [|x l IH]; simpl; [done|].
  rewrite insert_desc_Permutation. by rewrite IH.
Qed.

Lemma length_sort_reverse l : length (sort_reverse l) = length l.
Proof. apply Permutation_length, sort_reverse_Permutation. Qed.

Lemma insert_desc_descending x l : descending l → descending (insert_desc x l).
Proof.
  unfold descending. induction 1 as [|y l Hl IH Hy]; simpl.
  - repeat constructor.
  - unfold queen_lt. case_bool_decide as Hlt.
    + constructor; [done|].
      rewrite insert_desc_Permutation. constructor; [|done].
      unfold fitter. lia.
    + constructor; [by constructor|].
      constructor; [unfold fitter; lia|].
      eapply Forall_impl; [exact Hy|]. unfold fitter. intros z Hz. lia.
Qed.

Lemma sort_reverse_descending l : descending (sort_reverse l).
Proof.
  induction l as [|x l IH]; simpl; [constructor|].
  by apply insert_desc_descending.
Qed.

Lemma descending_take k l : descending l → descending (take k l).
Proof.
  unfold descending. intros Hl. revert k.
  induction Hl as [|x l Hl IH Hx]; intros [|k]; simpl; try constructor.
  - apply IH.
  - by apply Forall_take.
Qed.

Lemma descending_slice l k : descending l → descending (py_slice_to l k).
Proof. intros Hl. unfold py_slice_to. case_decide; by apply descending_take. Qed.

(** In a descending population the first board has maximal fitness. *)
Lemma descending_head_max best l b :
  descending (best :: l) → b ∈ best :: l → valid_queens b ≤ valid_queens best.
Proof.
  intros Hd Hb. apply StronglySorted_inv in Hd as [_ Hall].
  apply elem_of_cons in Hb as [->|Hb]; [done|].
  by apply (proj1 (Forall_forall _ _) Hall).
Qed.

(** ** One iteration *)

Lemma maybe_mutate_Ok cfg n b g :
  0 < n → well_formed n b →
  ∃ b' g', maybe_mutate cfg n b g = Ok (b', g') ∧
           well_formed n b' ∧ kept_or_mutated n b b'.
Proof.
  intros Hn Hb. unfold maybe_mutate.
  rewrite (M_bind_Ok _ _ _ _ _ (randrange_Ok 100 g ltac:(lia))).
  destruct (mutation_triggers cfg _).
  - destruct (mutation_well_formed n b (advance g) Hn Hb) as (b' & E & Hb').
    exists b', (advance (advance (advance g))). split; [done|]. split; [done|].
    right. eauto.
  - exists b, (advance g). split; [done|]. split; [done|]. by left.
Qed.

Lemma mutation_pass_Ok cfg n pop : ∀ g,
  0 < n → Forall (well_formed n) pop →
  ∃ pop' g', for_each_M (maybe_mutate cfg n) pop g = Ok (pop', g') ∧
             Forall (well_formed n) pop' ∧
             Forall2 (kept_or_mutated n) pop pop'.
Proof.
  induction pop as [|b pop IH]; intros g Hn Hwf.
  - exists [], g. by repeat split.
  - apply Forall_cons in Hwf as [Hb Hpop].
    destruct (maybe_mutate_Ok cfg n b g Hn Hb) as (b' & g1 & E1 & Hb' & Hk).
    destruct (IH g1 Hn Hpop) as (pop' & g2 & E2 & Hpop' & Hks).
    exists (b' :: pop'), g2. simpl.
    rewrite (M_bind_Ok _ _ _ _ _ E1), (M_bind_Ok _ _ _ _ _ E2).
    repeat split; by constructor.
Qed.

Lemma breed_Ok n pop parent_1 parent_2 g :
  0 < n → pop !! 0%nat = Some parent_1 → pop !! 1%nat = Some parent_2 →
  well_formed n parent_1 → well_formed n parent_2 →
  ∃ child_1 child_2,
    permutation parent_1 parent_2 n g = Ok ((child_1, child_2), advance g) ∧
    breed n pop g = Ok ((pop ++ [child_1]) ++ [child_2], advance g) ∧
    well_formed n child_1 ∧ well_formed n child_2.
Proof.
  intros Hn H0 H1 Hw1 Hw2.
  destruct (permutation_well_formed n parent_1 parent_2 g Hn Hw1 Hw2)
    as (c1 & c2 & E & Hc1 & Hc2).
  exists c1, c2. split; [done|]. split; [|done].
  unfold breed.
  rewrite (M_bind_Ok _ _ _ _ _ (lift_Ok _ _ g (py_getitem_nat pop 0 _ H0))).
  rewrite (M_bind_Ok _ _ _ _ _ (lift_Ok _ _ g (py_getitem_nat pop 1 _ H1))).
  by rewrite (M_bind_Ok _ _ _ _ _ E).
Qed.

(** C5.  In an iteration on a population of at least two well-formed
    boards, the boards recombined are [population[0]] and [population[1]];
    both children are appended; the mutation pass runs over the population
    with the two children at its end, leaving each board as it was or
    mutated; and the population that is then sliced is the sorted result of
    that pass. *)
Theorem elitist_selection (cfg : Config) (n : Z) (pop : list Queen) (g : Rng) :
  0 < n → Forall (well_formed n) pop → (2 ≤ length pop)%nat →
  ∃ parent_1 parent_2 child_1 child_2 mutated g',
    pop !! 0%nat = Some parent_1 ∧ pop !! 1%nat = Some parent_2 ∧
    permutation parent_1 parent_2 n g = Ok ((child_1, child_2), advance g) ∧
    breed n pop g = Ok (pop ++ [child_1; child_2], advance g) ∧
    for_each_M (maybe_mutate cfg n) (pop ++ [child_1; child_2]) (advance g)
      = Ok (mutated, g') ∧
    Forall2 (kept_or_mutated n) (pop ++ [child_1; child_2]) mutated ∧
    grow cfg n pop g = Ok (sort_reverse mutated, g').
Proof.
  intros Hn Hwf Hlen.
  destruct (lookup_lt_is_Some_2 pop 0) as [p1 H1]; [lia|].
  destruct (lookup_lt_is_Some_2 pop 1) as [p2 H2]; [lia|].
  pose proof (Forall_lookup_1 _ _ _ _ Hwf H1) as Hw1.
  pose proof (Forall_lookup_1 _ _ _ _ Hwf H2) as Hw2.
  destruct (breed_Ok n pop p1 p2 g Hn H1 H2 Hw1 Hw2)
    as (c1 & c2 & Eperm & Ebreed & Hc1 & Hc2).
  rewrite <- app_assoc in Ebreed. simpl in Ebreed.
  destruct (mutation_pass_Ok cfg n (pop ++ [c1; c2]) (advance g) Hn)
    as (mutated & g' & Epass & _ & Hk).
  { apply Forall_app. split; [done|].
    apply Forall_cons. split; [done|]. by apply Forall_singleton. }
  exists p1, p2, c1, c2, mutated, g'. repeat split; try done.
  unfold grow.
  by rewrite (M_bind_Ok _ _ _ _ _ Ebreed), (M_bind_Ok _ _ _ _ _ Epass).
Qed.

Lemma sample_population_well_formed : Forall (well_formed 4) sample_population.
Proof.
  repeat constructor; simpl; lia.
Qed.

Lemma elitist_selection_witness :
  ∃ child_1 child_2,
    permutation (board4 [1; 3; 0; 0]) (board4 [0; 2; 0; 2]) 4 (mkRng (lcg 7) 0)
      = Ok ((child_1, child_2), mkRng (lcg 7) 1) ∧
    breed 4 sample_population (mkRng (lcg 7) 0)
      = Ok (sample_population ++ [child_1; child_2], mkRng (lcg 7) 1).
Proof.
  destruct (elitist_selection default_config 4 sample_population
              (mkRng (lcg 7) 0) ltac:(lia) sample_population_well_formed
              ltac:(simpl; lia))
    as (p1 & p2 & c1 & c2 & mutated & g' & H1 & H2 & Eperm & Ebreed & _).
  injection H1 as <-. injection H2 as <-.
  exists c1, c2. split; [exact Eperm | exact Ebreed].
Defined.

(** ** The population across iterations *)

Lemma for_each_M_Ok {X Y} (body : X → M Y) (P : Y → Prop) (xs : list X) :
  (∀ x g, ∃ y g', body x g = Ok (y, g') ∧ P y) →
  ∀ g, ∃ ys g', for_each_M body xs g = Ok (ys, g') ∧
                length ys = length xs ∧ Forall P ys.
Proof.
  intros Hbody. induction xs as [|x xs IH]; intros g.
  - exists [], g. by repeat split.
  - destruct (Hbody x g) as (y & g1 & E1 & Hy).
    destruct (IH g1) as (ys & g2 & E2 & Hlen & Hys).
    exists (y :: ys), g2. simpl.
    rewrite (M_bind_Ok _ _ _ _ _ E1), (M_bind_Ok _ _ _ _ _ E2).
    repeat split; [by rewrite Hlen | by constructor].
Qed.

Lemma random_positions_Ok (k : nat) (n : Z) : ∀ g,
  0 < n →
  ∃ cs g', random_positions k n g = Ok (cs, g') ∧
           length cs = k ∧ Forall (λ c, 0 ≤ c < n) cs.
Proof.
  induction k as [|k IH]; intros g Hn.
  - exists [], g. by repeat split.
  - destruct (IH (advance g) Hn) as (cs & g' & E & Hlen & Hcs).
    exists (draws g (cursor g) `mod` n :: cs), g'. simpl.
    rewrite (M_bind_Ok _ _ _ _ _ (randrange_Ok n g Hn)).
    rewrite (M_bind_Ok _ _ _ _ _ E).
    repeat split; [by rewrite Hlen|].
    constructor; [by apply Z.mod_pos_bound|done].
Qed.

Lemma Queen_new_Ok (n : Z) (g : Rng) :
  0 < n → ∃ q g', Queen_new n g = Ok (q, g') ∧ well_formed n q.
Proof.
  intros Hn.
  destruct (random_positions_Ok (Z.to_nat n) n g Hn) as (cs & g' & E & Hlen & Hcs).
  eexists _, g'. unfold Queen_new. rewrite (M_bind_Ok _ _ _ _ _ E).
  split; [done|]. split; simpl; [lia|done].
Qed.

Lemma init_population_Ok cfg n g :
  0 < n → 0 ≤ population_size cfg →
  ∃ pop g', init_population cfg n g = Ok (pop, g') ∧ settled cfg n pop.
Proof.
  intros Hn Hps.
  destruct (for_each_M_Ok (λ _ : Z, Queen_new n) (well_formed n)
              (py_range 0 (population_size cfg))
              (λ _ g, Queen_new_Ok n g Hn) g)
    as (pop & g' & E & Hlen & Hwf).
  exists (sort_reverse pop), g'. unfold init_population.
  rewrite (M_bind_Ok _ _ _ _ _ E). split; [done|]. split; [|split].
  - rewrite length_sort_reverse, Hlen. unfold py_range. rewrite length_seqZ. lia.
  - by rewrite sort_reverse_Permutation.
  - apply sort_reverse_descending.
Qed.

Lemma grow_Ok cfg n pop g :
  0 < n → Forall (well_formed n) pop → (2 ≤ length pop)%nat →
  ∃ grown g', grow cfg n pop g = Ok (grown, g') ∧
    length grown = (length pop + 2)%nat ∧
    Forall (well_formed n) grown ∧ descending grown.
Proof.
  intros Hn Hwf Hlen.
  destruct (lookup_lt_is_Some_2 pop 0) as [p1 H1]; [lia|].
  destruct (lookup_lt_is_Some_2 pop 1) as [p2 H2]; [lia|].
  pose proof (Forall_lookup_1 _ _ _ _ Hwf H1) as Hw1.
  pose proof (Forall_lookup_1 _ _ _ _ Hwf H2) as Hw2.
  destruct (breed_Ok n pop p1 p2 g Hn H1 H2 Hw1 Hw2)
    as (c1 & c2 & _ & Ebreed & Hc1 & Hc2).
  destruct (mutation_pass_Ok cfg n ((pop ++ [c1]) ++ [c2]) (advance g) Hn)
    as (mutated & g' & Epass & Hwf' & Hk).
  { rewrite !Forall_app, !Forall_singleton. done. }
  exists (sort_reverse mutated), g'. unfold grow.
  rewrite (M_bind_Ok _ _ _ _ _ Ebreed), (M_bind_Ok _ _ _ _ _ Epass).
  split; [done|]. split; [|split].
  - rewrite length_sort_reverse, <- (Forall2_length _ _ _ Hk), !length_app.
    simpl. lia.
  - by rewrite sort_reverse_Permutation.
  - apply sort_reverse_descending.
Qed.

Lemma loop_body_Ok cfg n st g :
  0 < n → 2 ≤ population_size cfg →
  Z.of_nat (length (population st)) = population_size cfg →
  Forall (well_formed n) (population st) →
  ∃ grown g',
    grow cfg n (population st) g = Ok (grown, g') ∧
    Z.of_nat (length grown) = population_size cfg + 2 ∧
    loop_body cfg n st g
      = Ok (mkLoopState (py_slice_to grown (population_size cfg))
                        (current_iteration st + 1), g') ∧
    settled cfg n (py_slice_to grown (population_size cfg)).
Proof.
  intros Hn Hps Hlen Hwf.
  destruct (grow_Ok cfg n (population st) g Hn Hwf) as (grown & g' & E & Hl & Hw & Hd);
    [lia|].
  exists grown, g'. split; [done|]. split; [lia|]. split.
  - unfold loop_body. by rewrite (M_bind_Ok _ _ _ _ _ E).
  - unfold py_slice_to. rewrite decide_False by lia. split; [|split].
    + rewrite length_take. lia.
    + by apply Forall_take.
    + by apply descending_take.
Qed.

(** C3.  The initial population is settled: [population_size] boards,
    sorted in descending order of fitness.  From a population of
    [population_size] boards every iteration completes; before the slice of
    line 172 the population has [population_size + 2] boards, and after it
    the population is settled again. *)
Theorem population_invariant (cfg : Config) (n : Z) :
  0 < n → 2 ≤ population_size cfg →
  (∀ g, ∃ pop g', init_population cfg n g = Ok (pop, g') ∧ settled cfg n pop) ∧
  (∀ st g,
     Z.of_nat (length (population st)) = population_size cfg →
     Forall (well_formed n) (population st) →
     ∃ grown st' g',
       grow cfg n (population st) g = Ok (grown, g') ∧
       Z.of_nat (length grown) = population_size cfg + 2 ∧
       loop_body cfg n st g = Ok (st', g') ∧
       population st' = py_slice_to grown (population_size cfg) ∧
       Z.of_nat (length (population st')) = population_size cfg ∧
       descending (population st') ∧
       Forall (well_formed n) (population st')).
Proof.
  intros Hn Hps. split.
  - intros g. apply init_population_Ok; lia.
  - intros st g Hlen Hwf.
    destruct (loop_body_Ok cfg n st g Hn Hps Hlen Hwf)
      as (grown & g' & Egrow & Hl & Ebody & Hs1 & Hs2 & Hs3).
    eexists grown, _, g'. split; [done|]. split; [done|]. split; [exact Ebody|].
    done.
Qed.

Lemma population_invariant_witness :
  ∃ pop g', init_population default_config 4 (mkRng (lcg 7) 0) = Ok (pop, g')
            ∧ settled default_config 4 pop.
Proof.
  refine (proj1 (population_invariant default_config 4 _ _) (mkRng (lcg 7) 0)).
  - lia.
  - simpl. lia.
Defined.

(** ** Termination *)

Lemma loop_guard_Ok cfg n st best :
  population st !! 0%nat = Some best →
  loop_guard cfg n st
  = Ok (bool_decide (valid_queens best ≠ n)
        && bool_decide (current_iteration st < max_iterations cfg)).
Proof.
  intros Hb. unfold loop_guard.
  pose proof (py_getitem_nat _ 0 _ Hb) as E. change (Z.of_nat 0) with 0 in E.
  by rewrite E.
Qed.

Lemma while_loop_exit fuel cfg n st g best :
  population st !! 0%nat = Some best →
  valid_queens best = n ∨ max_iterations cfg ≤ current_iteration st →
  while_loop fuel cfg n st g = Ok (st, g).
Proof.
  intros Hb Hexit.
  assert (bool_decide (valid_queens best ≠ n)
          && bool_decide (current_iteration st < max_iterations cfg) = false)
    as Hguard.
  { apply andb_false_iff. destruct Hexit as [Hfit|Hit].
    - left. apply bool_decide_eq_false. by intros [].
    - right. apply bool_decide_eq_false. lia. }
  destruct fuel; cbn [while_loop].
  all: rewrite (M_bind_Ok _ _ _ _ _ (lift_Ok _ _ g (loop_guard_Ok cfg n st best Hb))).
  all: by rewrite Hguard.
Qed.

Lemma while_loop_step fuel cfg n st g best :
  population st !! 0%nat = Some best →
  valid_queens best ≠ n → current_iteration st < max_iterations cfg →
  while_loop (S fuel) cfg n st g
  = (loop_body cfg n st ≫= while_loop fuel cfg n) g.
Proof.
  intros Hb Hfit Hit. cbn [while_loop].
  rewrite (M_bind_Ok _ _ _ _ _ (lift_Ok _ _ g (loop_guard_Ok cfg n st best Hb))).
  rewrite !bool_decide_eq_true_2 by done. done.
Qed.

Lemma while_loop_Ok cfg n :
  0 < n → 2 ≤ population_size cfg →
  ∀ (fuel : nat) st g,
    settled cfg n (population st) →
    current_iteration st ≤ max_iterations cfg →
    max_iterations cfg - current_iteration st ≤ Z.of_nat fuel →
    ∃ st' g' best,
      while_loop fuel cfg n st g = Ok (st', g') ∧
      settled cfg n (population st') ∧
      population st' !! 0%nat = Some best ∧
      current_iteration st ≤ current_iteration st' ≤ max_iterations cfg ∧
      (valid_queens best = n ∨ current_iteration st' = max_iterations cfg).
Proof.
  intros Hn Hps. induction fuel as [|fuel IH]; intros st g Hst Hit Hfuel.
  all: pose proof Hst as (Hlen & Hwf & Hd).
  all: destruct (lookup_lt_is_Some_2 (population st) 0) as [best Hbest]; [lia|].
  all: destruct (decide (valid_queens best = n)) as [Hfit|Hfit].
  1, 3: exists st, g, best; split; [apply (while_loop_exit _ _ _ _ _ best); auto|];
        repeat split; auto; lia.
  - exists st, g, best. split; [apply (while_loop_exit _ _ _ _ _ best); auto; lia|].
    repeat split; auto; lia.
  - destruct (decide (current_iteration st < max_iterations cfg)) as [Hlt|Hge].
    + rewrite (while_loop_step _ _ _ _ _ best) by done.
      destruct (loop_body_Ok cfg n st g Hn Hps Hlen Hwf)
        as (grown & g1 & _ & _ & Ebody & Hs).
      rewrite (M_bind_Ok _ _ _ _ _ Ebody).
      destruct (IH (mkLoopState (py_slice_to grown (population_size cfg))
                                (current_iteration st + 1)) g1 Hs)
        as (st' & g' & best' & E & Hs' & Hb' & Hit' & Hexit).
      { simpl. lia. }
      { simpl. lia. }
      simpl in Hit'. exists st', g', best'.
      split; [exact E|]. split; [exact Hs'|]. split; [exact Hb'|].
      split; [lia|exact Hexit].
    + exists st, g, best. split; [apply (while_loop_exit _ _ _ _ _ best); auto; lia|].
      repeat split; auto; lia.
Qed.

(** C4.  For a board size of at least 4, a population size of at least 2
    and a non-negative iteration bound, the run returns on every random
    stream within [max_iterations] iterations of the loop; at the exit the
    best board has fitness [n] or the iteration counter has reached
    [max_iterations]. *)
Theorem loop_terminates (cfg : Config) (n : Z) (g : Rng) :
  4 ≤ n → 2 ≤ population_size cfg → 0 ≤ max_iterations cfg →
  ∃ st g' best,
    evolve cfg n g = Ok (st, g') ∧
    population st !! 0%nat = Some best ∧
    0 ≤ current_iteration st ≤ max_iterations cfg ∧
    (valid_queens best = n ∨ current_iteration st = max_iterations cfg).
Proof.
  intros Hn Hps Hmax.
  destruct (init_population_Ok cfg n g) as (pop & g1 & Einit & Hs); [lia..|].
  destruct (while_loop_Ok cfg n ltac:(lia) Hps (Z.to_nat (max_iterations cfg))
              (mkLoopState pop 0) g1 Hs)
    as (st & g' & best & E & _ & Hbest & Hit & Hexit).
  { simpl. lia. }
  { simpl. lia. }
  exists st, g', best. unfold evolve. rewrite (M_bind_Ok _ _ _ _ _ Einit).
  done.
Qed.

Lemma loop_terminates_witness :
  ∃ st g' best,
    evolve default_config 4 (mkRng (lcg 1504886928) 0) = Ok (st, g') ∧
    population st !! 0%nat = Some best ∧
    0 ≤ current_iteration st ≤ 10000 ∧
    (valid_queens best = 4 ∨ current_iteration st = 10000).
Proof.
  apply (loop_terminates default_config 4 (mkRng (lcg 1504886928) 0)).
  - lia.
  - simpl. lia.
  - simpl. lia.
Defined.

(** ** The command line *)

Section CommandLine.
Variable py_int : string → option Z.
Variable seeded : Z → nat → Z.
Variable cfg : Config.

Lemma main_usage argv now :
  length argv ≠ 2%nat → length argv ≠ 3%nat →
  main py_int seeded cfg argv now = Quit [usage_message].
Proof.
  intros H2 H3. unfold main.
  by rewrite !bool_decide_eq_true_2.
Qed.

Lemma main_counted (argv : list string) :
  length argv = 2%nat ∨ length argv = 3%nat →
  bool_decide (length argv ≠ 2%nat) && bool_decide (length argv ≠ 3%nat)
  = false.
Proof.
  intros [H|H]; rewrite H; done.
Qed.

Lemma argv_1 (argv : list string) arg :
  argv !! 1%nat = Some arg → py_getitem argv 1 = Ok arg.
Proof. apply (py_getitem_nat argv 1). Qed.

Lemma argv_2 (argv : list string) arg :
  argv !! 2%nat = Some arg → py_getitem argv 2 = Ok arg.
Proof. apply (py_getitem_nat argv 2). Qed.

Lemma main_board_size argv now arg n :
  length argv = 2%nat ∨ length argv = 3%nat →
  argv !! 1%nat = Some arg → py_int arg = Some n → n < 4 →
  main py_int seeded cfg argv now = Quit [size_message].
Proof.
  intros Hlen Harg Hint Hn. unfold main.
  rewrite main_counted by done.
  rewrite (argv_1 argv arg Harg). simpl. rewrite Hint.
  by rewrite bool_decide_eq_true_2.
Qed.

Lemma main_board_size_invalid argv now arg :
  length argv = 2%nat ∨ length argv = 3%nat →
  argv !! 1%nat = Some arg → py_int arg = None →
  main py_int seeded cfg argv now = Uncaught ValueError [].
Proof.
  intros Hlen Harg Hint. unfold main.
  rewrite main_counted by done.
  rewrite (argv_1 argv arg Harg). simpl. by rewrite Hint.
Qed.

Lemma main_seed_invalid argv now arg_1 n arg_2 :
  length argv = 3%nat →
  argv !! 1%nat = Some arg_1 → py_int arg_1 = Some n → 4 ≤ n →
  argv !! 2%nat = Some arg_2 → py_int arg_2 = None →
  main py_int seeded cfg argv now = Uncaught ValueError [].
Proof.
  intros Hlen Harg1 Hint1 Hn Harg2 Hint2. unfold main.
  rewrite main_counted by auto.
  rewrite (argv_1 argv arg_1 Harg1). simpl. rewrite Hint1.
  rewrite bool_decide_eq_false_2 by lia.
  unfold read_seed. rewrite bool_decide_eq_true_2 by done.
  rewrite (argv_2 argv arg_2 Harg2). simpl. by rewrite Hint2.
Qed.
End CommandLine.

(** C9.  With an argument count other than one or two the program prints
    the usage message and quits; with a board size that reads as an integer
    below 4 it prints the board-size message and quits.  In both cases the
    message is all that is printed and no population has been built. *)
Theorem argument_validation (py_int : string → option Z) (seeded : Z → nat → Z)
    (cfg : Config) (argv : list string) (now : Z) :
  (length argv ≠ 2%nat → length argv ≠ 3%nat →
   main py_int seeded cfg argv now = Quit [usage_message] ∧
   population_of (main py_int seeded cfg argv now) = None) ∧
  (∀ arg n,
     length argv = 2%nat ∨ length argv = 3%nat →
     argv !! 1%nat = Some arg → py_int arg = Some n → n < 4 →
     main py_int seeded cfg argv now = Quit [size_message] ∧
     population_of (main py_int seeded cfg argv now) = None).
Proof.
  split.
  - intros H2 H3. by rewrite main_usage.
  - intros arg n Hlen Harg Hint Hn. by rewrite (main_board_size _ _ _ _ _ arg n).
Qed.

Lemma argument_validation_witness :
  (main read_int lcg default_config ["ec.py"] 0 = Quit [usage_message] ∧
   population_of (main read_int lcg default_config ["ec.py"] 0) = None) ∧
  (main read_int lcg default_config ["ec.py"; "3"] 0 = Quit [size_message] ∧
   population_of (main read_int lcg default_config ["ec.py"; "3"] 0) = None).
Proof.
  split.
  - apply (proj1 (argument_validation read_int lcg default_config ["ec.py"] 0));
      simpl; lia.
  - apply (proj2 (argument_validation read_int lcg default_config
                    ["ec.py"; "3"] 0) "3" 3); [by left|done|done|lia].
Defined.

(** C10, as stated, fails: with a board size below 4 the seed argument is
    never read, so a seed that is no integer literal ends in the board-size
    message and not in an exception. *)
Lemma seed_unread_counterexample :
  read_int "x" = None ∧
  main read_int lcg default_config ["ec.py"; "3"; "x"] 0 = Quit [size_message] ∧
  main read_int lcg default_config ["ec.py"; "3"; "x"] 0 ≠ Uncaught ValueError [].
Proof. by vm_compute. Qed.

(** C10, amended.  With one or two arguments, a board size that is no
    integer literal ends the program with an uncaught [ValueError] and
    nothing printed; so does, with two arguments, a seed that is no integer
    literal next to a board size that reads as an integer of at least 4. *)
Theorem conversion_errors (py_int : string → option Z) (seeded : Z → nat → Z)
    (cfg : Config) (argv : list string) (now : Z) :
  (∀ arg,
     length argv = 2%nat ∨ length argv = 3%nat →
     argv !! 1%nat = Some arg → py_int arg = None →
     main py_int seeded cfg argv now = Uncaught ValueError []) ∧
  (∀ arg_1 n arg_2,
     length argv = 3%nat →
     argv !! 1%nat = Some arg_1 → py_int arg_1 = Some n → 4 ≤ n →
     argv !! 2%nat = Some arg_2 → py_int arg_2 = None →
     main py_int seeded cfg argv now = Uncaught ValueError []).
Proof.
  split.
  - intros arg. apply main_board_size_invalid.
  - intros arg_1 n arg_2. apply main_seed_invalid.
Qed.

Lemma conversion_errors_witness :
  main read_int lcg default_config ["ec.py"; "8"; "x"] 0 = Uncaught ValueError [].
Proof.
  apply (proj2 (conversion_errors read_int lcg default_config
                  ["ec.py"; "8"; "x"] 0) "8" 8 "x"); try done; lia.
Defined.

(** * Further properties of the code *)

(** ** Recombination: composition and domain *)

Lemma splice_splice (p : nat) (a b : list Z) :
  length a = length b → splice p (splice p a b) (splice p b a) = a.
Proof.
  intros Hlen. unfold splice.
  destruct (decide (p ≤ length a)%nat) as [Hp|Hp].
  - rewrite take_app_le by (rewrite length_take; lia).
    rewrite take_take, Nat.min_id.
    rewrite drop_app_ge by (rewrite length_take; lia).
    rewrite length_take, drop_drop.
    replace (p + (p - p `min` length b))%nat with p by lia.
    apply take_drop.
  - rewrite (take_ge a), (take_ge b), (drop_ge a), (drop_ge b) by lia.
    rewrite !app_nil_r. rewrite take_ge, drop_ge by lia. apply app_nil_r.
Qed.

(** X1.  Recombination undoes itself: recombining the two children at the
    pivot that produced them returns boards with the positions of the two
    parents; and recombining the parents in the other order returns the same
    two children in the other order. *)
Theorem permutation_involution (A B : Queen) (n p : Z) :
  Z.of_nat (length (board A)) = n → Z.of_nat (length (board B)) = n →
  0 ≤ p ≤ n →
  ∃ child_1 child_2 back_1 back_2,
    permutation_at A B n p = Ok (child_1, child_2) ∧
    permutation_at child_1 child_2 n p = Ok (back_1, back_2) ∧
    board back_1 = board A ∧ board back_2 = board B ∧
    permutation_at B A n p = Ok (child_2, child_1).
Proof.
  intros HA HB Hp.
  assert (Hlen : length (board A) = length (board B)) by lia.
  assert (Hp' : (Z.to_nat p ≤ length (board A))%nat) by lia.
  pose proof (permutation_at_Ok A B (Z.to_nat p) Hlen Hp') as E.
  pose proof (permutation_at_Ok B A (Z.to_nat p) (eq_sym Hlen) ltac:(lia)) as E'.
  rewrite <- Hlen in E'. rewrite HA, Z2Nat.id in E, E' by lia.
  pose proof (permutation_at_Ok
      (update_valid_queens (set_board A (splice (Z.to_nat p) (board A) (board B))))
      (update_valid_queens (set_board B (splice (Z.to_nat p) (board B) (board A)))))
    as E2.
  simpl in E2. specialize (E2 (Z.to_nat p)).
  rewrite !length_splice in E2 by done.
  specialize (E2 Hlen Hp'). rewrite HA, Z2Nat.id in E2 by lia.
  eexists _, _, _, _. split; [exact E|]. split; [exact E2|].
  split; [simpl; by apply splice_splice|].
  split; [simpl; by apply splice_splice|]. exact E'.
Qed.

Lemma permutation_involution_witness :
  ∃ child_1 child_2 back_1 back_2,
    permutation_at (board4 [0; 1; 2; 3]) (board4 [3; 2; 1; 0]) 4 1
      = Ok (child_1, child_2) ∧
    permutation_at child_1 child_2 4 1 = Ok (back_1, back_2) ∧
    board back_1 = [0; 1; 2; 3] ∧ board back_2 = [3; 2; 1; 0] ∧
    permutation_at (board4 [3; 2; 1; 0]) (board4 [0; 1; 2; 3]) 4 1
      = Ok (child_2, child_1).
Proof.
  apply (permutation_involution (board4 [0; 1; 2; 3]) (board4 [3; 2; 1; 0]) 4 1);
    [done|done|lia].
Defined.

Lemma py_getitem_out {A} (l : list A) (i : nat) :
  (length l ≤ i)%nat → py_getitem l (Z.of_nat i) = Raise IndexError.
Proof.
  intros Hi. unfold py_getitem, py_index. cbv zeta.
  destruct (decide (Z.of_nat i < 0)) as [Hneg|_]; [lia|].
  by rewrite decide_False by lia.
Qed.

Lemma py_setitem_out {A} (l : list A) (i : nat) v :
  (length l ≤ i)%nat → py_setitem l (Z.of_nat i) v = Raise IndexError.
Proof.
  intros Hi. unfold py_setitem, py_index. cbv zeta.
  destruct (decide (Z.of_nat i < 0)) as [Hneg|_]; [lia|].
  by rewrite decide_False by lia.
Qed.

(** The gene-copy loop over rows [p] to [p + k - 1] of boards that have
    those rows: the other rows of the children stay as they are. *)
Lemma copy_loop_rows (A B : Queen) (k : nat) : ∀ (p : nat) (c1 c2 : Queen),
  (p + k ≤ length (board A))%nat → (p + k ≤ length (board B))%nat →
  (p + k ≤ length (board c1))%nat → (p + k ≤ length (board c2))%nat →
  for_each (permutation_copy A B) (c1, c2) (seqZ (Z.of_nat p) (Z.of_nat k))
  = Ok (set_board c1 (take p (board c1) ++ take k (drop p (board B))
                      ++ drop (p + k) (board c1)),
        set_board c2 (take p (board c2) ++ take k (drop p (board A))
                      ++ drop (p + k) (board c2))).
Proof.
  induction k as [|k IH]; intros p c1 c2 HA HB H1 H2.
  - rewrite seqZ_nil by lia. simpl. rewrite Nat.add_0_r, !take_drop.
    by destruct c1, c2.
  - rewrite seqZ_cons by lia. simpl.
    destruct (lookup_lt_is_Some_2 (board A) p) as [a Ha]; [lia|].
    destruct (lookup_lt_is_Some_2 (board B) p) as [b Hb]; [lia|].
    rewrite (py_getitem_nat _ _ _ Hb). simpl.
    rewrite py_setitem_nat by lia. simpl.
    rewrite (py_getitem_nat _ _ _ Ha). simpl.
    rewrite py_setitem_nat by lia. simpl.
    replace (Z.succ (Z.of_nat p)) with (Z.of_nat (S p)) by lia.
    replace (Z.pred (Z.of_nat (S k))) with (Z.of_nat k) by lia.
    rewrite IH; rewrite ?board_set_board, ?length_insert; try lia.
    rewrite !set_board_set_board.
    rewrite (drop_S _ _ _ Ha), (drop_S _ _ _ Hb). simpl.
    rewrite (take_S_r _ _ b) by (apply list_lookup_insert_eq; lia).
    rewrite (take_S_r _ _ a) by (apply list_lookup_insert_eq; lia).
    rewrite !take_insert_ge by lia.
    rewrite !drop_insert_lt by lia.
    rewrite <- !app_assoc. simpl.
    by replace (p + S k)%nat with (S (p + k)) by lia.
Qed.

(** The gene-copy loop that runs past the end of a parent raises. *)
Lemma copy_loop_short (A B : Queen) (k : nat) : ∀ (p : nat) (c1 c2 : Queen),
  length (board c1) = length (board A) → length (board c2) = length (board B) →
  (0 < k)%nat →
  (length (board A) < p + k ∨ length (board B) < p + k)%nat →
  for_each (permutation_copy A B) (c1, c2) (seqZ (Z.of_nat p) (Z.of_nat k))
  = Raise IndexError.
Proof.
  induction k as [|k IH]; intros p c1 c2 H1 H2 Hk Hshort; [lia|].
  rewrite seqZ_cons by lia. simpl.
  destruct (decide (length (board B) ≤ p)%nat) as [HB|HB].
  { rewrite (py_getitem_out (board B)) by lia. reflexivity. }
  destruct (lookup_lt_is_Some_2 (board B) p) as [b Hb]; [lia|].
  rewrite (py_getitem_nat _ _ _ Hb). simpl.
  destruct (decide (length (board A) ≤ p)%nat) as [HA|HA].
  { rewrite (py_setitem_out (board c1)) by lia. reflexivity. }
  destruct (lookup_lt_is_Some_2 (board A) p) as [a Ha]; [lia|].
  rewrite py_setitem_nat by lia. simpl.
  rewrite (py_getitem_nat _ _ _ Ha). simpl.
  rewrite py_setitem_nat by lia. simpl.
  replace (Z.succ (Z.of_nat p)) with (Z.of_nat (S p)) by lia.
  replace (Z.pred (Z.of_nat (S k))) with (Z.of_nat k) by lia.
  apply IH; rewrite ?board_set_board, ?length_insert; lia.
Qed.

(** X2.  [permutation] returns exactly when [n] is positive and both
    parents have at least [n] positions.  For [n ≤ 0] it raises [ValueError]
    (no pivot can be drawn); with a parent of fewer than [n] positions it
    raises [IndexError] whatever the pivot; otherwise it draws one number and
    recombines the rows below [n], leaving rows from [n] on with the parent
    the child was copied from. *)
Theorem permutation_domain (A B : Queen) (n : Z) (g : Rng) :
  (n ≤ 0 → permutation A B n g = Raise ValueError) ∧
  (0 < n →
   Z.of_nat (length (board A)) < n ∨ Z.of_nat (length (board B)) < n →
   permutation A B n g = Raise IndexError) ∧
  (0 < n →
   n ≤ Z.of_nat (length (board A)) → n ≤ Z.of_nat (length (board B)) →
   permutation A B n g
   = Ok ((update_valid_queens
            (set_board A (splice_to (Z.to_nat n)
                            (Z.to_nat (draws g (cursor g) `mod` n))
                            (board A) (board B))),
          update_valid_queens
            (set_board B (splice_to (Z.to_nat n)
                            (Z.to_nat (draws g (cursor g) `mod` n))
                            (board B) (board A)))),
         advance g)).
Proof.
  split; [|split].
  - intros Hn. unfold permutation, mbind, M_bind, randrange.
    by rewrite decide_False by lia.
  - intros Hn Hshort.
    pose proof (Z.mod_pos_bound (draws g (cursor g)) n Hn) as Hp.
    unfold permutation. rewrite (M_bind_Ok _ _ _ _ _ (randrange_Ok n g Hn)).
    set (p := draws g (cursor g) `mod` n) in *.
    unfold permutation_at, py_range, deepcopy.
    rewrite <- (Z2Nat.id p), <- (Z2Nat.id (n - Z.of_nat (Z.to_nat p))) by lia.
    rewrite copy_loop_short; [done|done|done|lia|lia].
  - intros Hn HA HB.
    pose proof (Z.mod_pos_bound (draws g (cursor g)) n Hn) as Hp.
    unfold permutation. rewrite (M_bind_Ok _ _ _ _ _ (randrange_Ok n g Hn)).
    set (p := draws g (cursor g) `mod` n) in *.
    apply lift_Ok. unfold permutation_at, py_range, deepcopy.
    rewrite <- (Z2Nat.id p) at 1 2 by lia.
    rewrite <- (Z2Nat.id (n - Z.of_nat (Z.to_nat p))) by lia.
    rewrite copy_loop_rows by lia. simpl. unfold splice_to.
    replace (Z.to_nat (n - Z.of_nat (Z.to_nat p)))
      with (Z.to_nat n - Z.to_nat p)%nat by lia.
    by replace (Z.to_nat p + (Z.to_nat n - Z.to_nat p))%nat
      with (Z.to_nat n) by lia.
Qed.

Lemma permutation_domain_witness :
  permutation (board4 [0; 1; 2]) (board4 [3; 2; 1; 0]) 4 (mkRng (lcg 7) 0)
  = Raise IndexError.
Proof.
  apply (proj1 (proj2 (permutation_domain (board4 [0; 1; 2]) (board4 [3; 2; 1; 0])
                         4 (mkRng (lcg 7) 0)))).
  - lia.
  - left. simpl. lia.
Defined.

(** ** Mutation: domain *)

(** X3.  [mutation] raises [ValueError] for [n ≤ 0]; for [n > 0] it draws a
    row and a column and raises [IndexError] exactly when the drawn row lies
    beyond the end of the board, otherwise it returns the board with that
    row overwritten and the fitness recomputed. *)
Theorem mutation_outcome (b : Queen) (n : Z) (g : Rng) :
  (n ≤ 0 → mutation b n g = Raise ValueError) ∧
  (0 < n →
   Z.of_nat (length (board b)) ≤ draws g (cursor g) `mod` n →
   mutation b n g = Raise IndexError) ∧
  (0 < n →
   draws g (cursor g) `mod` n < Z.of_nat (length (board b)) →
   mutation b n g
   = Ok (update_valid_queens
           (set_board b (<[Z.to_nat (draws g (cursor g) `mod` n)
                           := draws g (S (cursor g)) `mod` n]> (board b))),
         advance (advance g))).
Proof.
  split; [|split].
  - intros Hn. unfold mutation, mbind, M_bind, randrange.
    by rewrite decide_False by lia.
  - intros Hn Hrow.
    pose proof (Z.mod_pos_bound (draws g (cursor g)) n Hn) as Hp.
    unfold mutation.
    rewrite (M_bind_Ok _ _ _ _ _ (randrange_Ok n g Hn)).
    rewrite (M_bind_Ok _ _ _ _ _ (randrange_Ok n (advance g) Hn)).
    unfold mutation_at.
    rewrite <- (Z2Nat.id (draws g (cursor g) `mod` n)) by lia.
    rewrite py_setitem_out by lia. done.
  - intros Hn Hrow.
    pose proof (Z.mod_pos_bound (draws g (cursor g)) n Hn) as Hp.
    unfold mutation.
    rewrite (M_bind_Ok _ _ _ _ _ (randrange_Ok n g Hn)).
    rewrite (M_bind_Ok _ _ _ _ _ (randrange_Ok n (advance g) Hn)).
    apply lift_Ok. unfold mutation_at.
    rewrite <- (Z2Nat.id (draws g (cursor g) `mod` n)) at 1 by lia.
    rewrite py_setitem_nat by lia. done.
Qed.

Lemma mutation_outcome_witness :
  mutation (board4 []) 4 (mkRng (lcg 7) 0) = Raise IndexError.
Proof.
  apply (proj1 (proj2 (mutation_outcome (board4 []) 4 (mkRng (lcg 7) 0)))).
  - lia.
  - simpl length. apply Z.mod_pos_bound. lia.
Defined.

(** ** The random stream: how much each step consumes *)

Lemma permutation_inv A B n g c1 c2 g' :
  permutation A B n g = Ok ((c1, c2), g') →
  g' = advance g ∧ 0 < n ∧
  ∃ x y, c1 = update_valid_queens x ∧ c2 = update_valid_queens y.
Proof.
  unfold permutation. intros E.
  apply M_bind_inv in E as (p & g1 & Ep & E).
  assert (0 < n) as Hn.
  { unfold randrange in Ep. by case_decide. }
  apply randrange_range in Ep as [_ ->].
  apply lift_inv in E as [E ->]. split; [done|]. split; [done|].
  unfold permutation_at in E.
  destruct (for_each _ _ _) as [[x y]| |]; [|done..].
  simpl in E. injection E as <- <-. by exists x, y.
Qed.

Lemma mutation_inv_state b n g b' g' :
  mutation b n g = Ok (b', g') →
  g' = advance (advance g) ∧ 0 < n ∧ ∃ x, b' = update_valid_queens x.
Proof.
  unfold mutation. intros E.
  apply M_bind_inv in E as (point & g1 & Ep & E).
  apply M_bind_inv in E as (col & g2 & Ec & E).
  assert (0 < n) as Hn.
  { unfold randrange in Ep. by case_decide. }
  apply randrange_range in Ep as [_ ->], Ec as [_ ->].
  apply lift_inv in E as [E ->]. split; [done|]. split; [done|].
  unfold mutation_at in E.
  destruct (py_setitem _ _ _) as [bd| |]; [|done..].
  simpl in E. injection E as <-. by eexists.
Qed.

(** X4.  Whenever they return, [permutation] has consumed exactly one draw
    of the random stream and [mutation] exactly two; neither touches the
    draws to come. *)
Theorem operators_draws (n : Z) (g g' : Rng) :
  (∀ A B children,
     permutation A B n g = Ok (children, g') →
     draws g' = draws g ∧ drawn g g' = 1) ∧
  (∀ b b',
     mutation b n g = Ok (b', g') →
     draws g' = draws g ∧ drawn g g' = 2).
Proof.
  split.
  - intros A B [c1 c2] E. apply permutation_inv in E as [-> _].
    unfold drawn. simpl. split; [done|lia].
  - intros b b' E. apply mutation_inv_state in E as [-> _].
    unfold drawn. simpl. split; [done|lia].
Qed.

Lemma operators_draws_witness :
  draws (mkRng (lcg 7) 2) = draws (mkRng (lcg 7) 0) ∧
  drawn (mkRng (lcg 7) 0) (mkRng (lcg 7) 2) = 2.
Proof.
  exact (proj2 (operators_draws 4 (mkRng (lcg 7) 0) (mkRng (lcg 7) 2))
           (board4 [1; 3; 0; 2]) _
           (mutation_Ok (board4 [1; 3; 0; 2]) 4 (mkRng (lcg 7) 0)
              ltac:(lia) eq_refl)).
Defined.

Lemma fresh_update x : fresh (update_valid_queens x).
Proof. reflexivity. Qed.

Lemma maybe_mutate_inv cfg n b g b' g' :
  maybe_mutate cfg n b g = Ok (b', g') →
  draws g' = draws g ∧
  ((b' = b ∧ drawn g g' = 1) ∨ (fresh b' ∧ drawn g g' = 3)).
Proof.
  unfold maybe_mutate. intros E.
  apply M_bind_inv in E as (r & g1 & Er & E).
  apply randrange_range in Er as [_ ->].
  destruct (mutation_triggers cfg r).
  - apply mutation_inv_state in E as (-> & _ & x & ->).
    split; [done|]. right. split; [apply fresh_update|]. unfold drawn. simpl. lia.
  - injection E as <- <-. split; [done|]. left. split; [done|].
    unfold drawn. simpl. lia.
Qed.

Lemma mutation_pass_inv cfg n pop : ∀ g pop' g',
  for_each_M (maybe_mutate cfg n) pop g = Ok (pop', g') →
  draws g' = draws g ∧
  Z.of_nat (length pop) ≤ drawn g g' ≤ 3 * Z.of_nat (length pop) ∧
  Forall2 (λ b b', b' = b ∨ fresh b') pop pop'.
Proof.
  induction pop as [|b pop IH]; intros g pop' g' E; simpl in E.
  - injection E as <- <-. unfold drawn. simpl. split; [done|].
    split; [lia|constructor].
  - apply M_bind_inv in E as (b' & g1 & E1 & E).
    apply M_bind_inv in E as (rest & g2 & E2 & E).
    injection E as <- <-.
    apply maybe_mutate_inv in E1 as (Hd1 & H1).
    apply IH in E2 as (Hd2 & Hn2 & Hrest).
    split; [congruence|]. unfold drawn in *. simpl length. split.
    + destruct H1 as [[_ H1]|[_ H1]]; lia.
    + constructor; [|done]. destruct H1 as [[-> _]|[Hf _]]; auto.
Qed.

Lemma breed_inv n pop g pop1 g1 :
  breed n pop g = Ok (pop1, g1) →
  g1 = advance g ∧
  ∃ child_1 child_2, pop1 = (pop ++ [child_1]) ++ [child_2] ∧
                     fresh child_1 ∧ fresh child_2.
Proof.
  unfold breed. intros E.
  apply M_bind_inv in E as (p1 & g' & E1 & E). apply lift_inv in E1 as [_ ->].
  apply M_bind_inv in E as (p2 & g' & E2 & E). apply lift_inv in E2 as [_ ->].
  apply M_bind_inv in E as ([c1 c2] & g' & Ep & E).
  apply permutation_inv in Ep as (-> & _ & x & y & -> & ->).
  injection E as <- <-. split; [done|].
  eexists _, _. split; [done|]. split; apply fresh_update.
Qed.

Lemma grow_inv cfg n pop g grown g' :
  grow cfg n pop g = Ok (grown, g') →
  ∃ child_1 child_2 mutated,
    fresh child_1 ∧ fresh child_2 ∧
    Forall2 (λ b b', b' = b ∨ fresh b') ((pop ++ [child_1]) ++ [child_2]) mutated ∧
    grown = sort_reverse mutated ∧
    draws g' = draws g ∧
    Z.of_nat (length pop) + 3 ≤ drawn g g' ≤ 3 * Z.of_nat (length pop) + 7.
Proof.
  unfold grow. intros E.
  apply M_bind_inv in E as (pop1 & g1 & Eb & E).
  apply M_bind_inv in E as (mutated & g2 & Em & E).
  injection E as <- <-.
  apply breed_inv in Eb as (-> & c1 & c2 & -> & Hc1 & Hc2).
  apply mutation_pass_inv in Em as (Hd & Hn & Hk).
  exists c1, c2, mutated. repeat split; try done.
  all: unfold drawn in *; rewrite !length_app in Hn; simpl in *; lia.
Qed.

Lemma loop_body_inv cfg n st g st' g' :
  loop_body cfg n st g = Ok (st', g') →
  ∃ grown, grow cfg n (population st) g = Ok (grown, g') ∧
           st' = mkLoopState (py_slice_to grown (population_size cfg))
                             (current_iteration st + 1).
Proof.
  unfold loop_body. intros E.
  apply M_bind_inv in E as (grown & g1 & Eg & E).
  injection E as <- <-. by exists grown.
Qed.

(** X5.  Whenever an iteration completes on a population of [L] boards it
    has consumed between [L + 3] and [3 L + 7] draws of the random stream:
    one pivot, one roll for each of the [L + 2] boards and two more for each
    board mutated; the draws to come are untouched. *)
Theorem iteration_draws (cfg : Config) (n : Z) (st st' : LoopState) (g g' : Rng) :
  loop_body cfg n st g = Ok (st', g') →
  draws g' = draws g ∧
  Z.of_nat (length (population st)) + 3 ≤ drawn g g'
    ≤ 3 * Z.of_nat (length (population st)) + 7.
Proof.
  intros E. apply loop_body_inv in E as (grown & E & _).
  apply grow_inv in E as (c1 & c2 & mutated & _ & _ & _ & _ & Hd & Hn).
  done.
Qed.

Lemma iteration_draws_witness :
  ∃ st' g',
    loop_body (mkConfig 3 50 5) 4 (mkLoopState sample_population 0)
              (mkRng (lcg 7) 0) = Ok (st', g') ∧
    6 ≤ drawn (mkRng (lcg 7) 0) g' ≤ 16.
Proof.
  destruct (loop_body_Ok (mkConfig 3 50 5) 4 (mkLoopState sample_population 0)
              (mkRng (lcg 7) 0) ltac:(lia) ltac:(simpl; lia) eq_refl
              sample_population_well_formed)
    as (grown & g' & _ & _ & E & _).
  eexists _, g'. split; [exact E|].
  exact (proj2 (iteration_draws _ _ _ _ _ _ E)).
Defined.

(** ** The stored fitness is never stale *)

Lemma Forall2_fresh (l l' : list Queen) :
  Forall2 (λ b b', b' = b ∨ fresh b') l l' → Forall fresh l → Forall fresh l'.
Proof.
  induction 1 as [|b b' l l' Hb _ IH]; intros Hl; [constructor|].
  apply Forall_cons in Hl as [Hfb Hfl].
  constructor; [|by apply IH]. by destruct Hb as [->|].
Qed.

Lemma Forall_slice {X} (P : X → Prop) (l : list X) (k : Z) :
  Forall P l → Forall P (py_slice_to l k).
Proof. intros Hl. unfold py_slice_to. case_decide; by apply Forall_take. Qed.

Lemma for_each_M_inv {X Y} (body : X → M Y) (P : Y → Prop) (xs : list X) :
  (∀ x g y g', body x g = Ok (y, g') → P y) →
  ∀ g ys g', for_each_M body xs g = Ok (ys, g') → Forall P ys.
Proof.
  intros Hbody. induction xs as [|x xs IH]; intros g ys g' E; simpl in E.
  - injection E as <- <-. constructor.
  - apply M_bind_inv in E as (y & g1 & E1 & E).
    apply M_bind_inv in E as (rest & g2 & E2 & E).
    injection E as <- <-. constructor; eauto.
Qed.

Lemma init_population_fresh cfg n g pop g' :
  init_population cfg n g = Ok (pop, g') → Forall fresh pop.
Proof.
  unfold init_population. intros E.
  apply M_bind_inv in E as (made & g1 & Em & E). injection E as <- <-.
  rewrite sort_reverse_Permutation.
  apply (for_each_M_inv _ fresh _) in Em; [done|].
  intros _ g0 q g2 Eq. unfold Queen_new in Eq.
  apply M_bind_inv in Eq as (cs & g3 & _ & Eq). injection Eq as <- <-.
  apply fresh_update.
Qed.

Lemma loop_body_fresh cfg n st g st' g' :
  Forall fresh (population st) → loop_body cfg n st g = Ok (st', g') →
  Forall fresh (population st').
Proof.
  intros Hf E. apply loop_body_inv in E as (grown & E & ->). simpl.
  apply grow_inv in E as (c1 & c2 & mutated & Hc1 & Hc2 & Hk & -> & _).
  apply Forall_slice. rewrite sort_reverse_Permutation.
  apply (Forall2_fresh _ _ Hk).
  rewrite !Forall_app, !Forall_singleton. done.
Qed.

(** X6.  The stored fitness is never stale: the children of a
    recombination, a mutated board and every board of the initial population
    carry the fitness of their positions, and an iteration on a population of
    such boards leaves a population of such boards. *)
Theorem fitness_never_stale (cfg : Config) (n : Z) (g g' : Rng) :
  (∀ A B child_1 child_2,
     permutation A B n g = Ok ((child_1, child_2), g') →
     fresh child_1 ∧ fresh child_2) ∧
  (∀ b b', mutation b n g = Ok (b', g') → fresh b') ∧
  (∀ pop, init_population cfg n g = Ok (pop, g') → Forall fresh pop) ∧
  (∀ st st',
     Forall fresh (population st) → loop_body cfg n st g = Ok (st', g') →
     Forall fresh (population st')).
Proof.
  repeat split.
  - apply permutation_inv in H as (_ & _ & x & y & -> & ->). apply fresh_update.
  - apply permutation_inv in H as (_ & _ & x & y & -> & ->). apply fresh_update.
  - intros b b' E. apply mutation_inv_state in E as (_ & _ & x & ->).
    apply fresh_update.
  - intros pop. apply init_population_fresh.
  - intros st st'. apply loop_body_fresh.
Qed.

Lemma fitness_never_stale_witness :
  ∃ st' g',
    loop_body (mkConfig 3 50 5) 4 (mkLoopState sample_population 0)
              (mkRng (lcg 7) 0) = Ok (st', g') ∧
    Forall fresh (population st').
Proof.
  destruct (loop_body_Ok (mkConfig 3 50 5) 4 (mkLoopState sample_population 0)
              (mkRng (lcg 7) 0) ltac:(lia) ltac:(simpl; lia) eq_refl
              sample_population_well_formed)
    as (grown & g' & _ & _ & E & _).
  eexists _, g'. split; [exact E|].
  refine (proj2 (proj2 (proj2 (fitness_never_stale _ _ _ _))) _ _ _ E).
  repeat constructor.
Defined.

(** ** A reported success is a solution *)

Lemma while_loop_invariant (I : LoopState → Prop) cfg n :
  (∀ st g st' g', I st → loop_body cfg n st g = Ok (st', g') → I st') →
  ∀ fuel st g st' g',
    I st → while_loop fuel cfg n st g = Ok (st', g') →
    I st' ∧ loop_guard cfg n st' = Ok false.
Proof.
  intros Hbody. induction fuel as [|fuel IH]; intros st g st' g' Hst E.
  all: cbn [while_loop] in E.
  all: apply M_bind_inv in E as (continue & g1 & Eg & E).
  all: apply lift_inv in Eg as [Eg ->].
  all: destruct continue; [|by injection E as <- <-].
  - discriminate.
  - apply M_bind_inv in E as (st1 & g1 & Eb & E). eauto.
Qed.

Lemma loop_body_settled cfg n st g st' g' :
  0 < n → 2 ≤ population_size cfg →
  settled cfg n (population st) → loop_body cfg n st g = Ok (st', g') →
  settled cfg n (population st').
Proof.
  intros Hn Hps (Hlen & Hwf & _) E.
  destruct (loop_body_Ok cfg n st g Hn Hps Hlen Hwf) as (grown & g1 & _ & _ & E' & Hs).
  rewrite E in E'. by injection E' as -> _.
Qed.

(** X7.  When the run ends with a best board whose stored fitness is [n],
    that board is a solution of the puzzle: it has [n] positions with
    columns in [[0, n)], and no two of its queens share a column or a
    diagonal. *)
Theorem success_is_solution (cfg : Config) (n : Z) (g g' : Rng)
    (st : LoopState) (best : Queen) :
  0 < n → 2 ≤ population_size cfg →
  evolve cfg n g = Ok (st, g') →
  population st !! 0%nat = Some best → valid_queens best = n →
  well_formed n best ∧ peaceful (board best).
Proof.
  intros Hn Hps E Hbest Hfit. unfold evolve in E.
  apply M_bind_inv in E as (pop & g1 & Einit & E).
  destruct (init_population_Ok cfg n g Hn ltac:(lia)) as (pop0 & g0 & E0 & Hs0).
  rewrite Einit in E0. injection E0 as <- <-.
  apply init_population_fresh in Einit.
  apply (while_loop_invariant
           (λ s, settled cfg n (population s) ∧ Forall fresh (population s)))
    in E as [[Hs Hf] _]; [| |done].
  - destruct Hs as (_ & Hwf & _).
    pose proof (Forall_lookup_1 _ _ _ _ Hwf Hbest) as Hw.
    pose proof (Forall_lookup_1 _ _ _ _ Hf Hbest) as Hfb.
    split; [done|]. apply count_valid_queens_full.
    destruct Hw as [Hlen _]. unfold fresh in Hfb. lia.
  - intros s g2 s' g3 [Hs Hf] Eb. split.
    + by eapply loop_body_settled.
    + by eapply loop_body_fresh.
Qed.

Lemma success_is_solution_witness :
  well_formed 4 (mkQueen 4 [1; 3; 0; 2] 4) ∧ peaceful [1; 3; 0; 2].
Proof.
  assert (match evolve default_config 4 (mkRng (lcg 7) 0) with
          | Ok (st, _) => Some st
          | _ => None
          end
          = Some (mkLoopState
                    [mkQueen 4 [1; 3; 0; 2] 4; mkQueen 4 [1; 3; 0; 2] 4;
                     mkQueen 4 [1; 3; 2; 0] 2; mkQueen 4 [0; 3; 0; 2] 2;
                     mkQueen 4 [1; 1; 2; 0] 1; mkQueen 4 [0; 3; 0; 0] 1;
                     mkQueen 4 [0; 3; 0; 0] 1; mkQueen 4 [2; 3; 1; 1] 0;
                     mkQueen 4 [0; 2; 2; 3] 0; mkQueen 4 [3; 3; 2; 2] 0] 7))
    as Hrun by (vm_compute; reflexivity).
  destruct (evolve default_config 4 (mkRng (lcg 7) 0)) as [[st g']| |] eqn:E;
    [|discriminate..].
  injection Hrun as ->.
  apply (success_is_solution default_config 4 (mkRng (lcg 7) 0) g' _
           (mkQueen 4 [1; 3; 0; 2] 4) ltac:(lia) ltac:(simpl; lia) E);
    reflexivity.
Defined.

(** ** The slice of line 172 *)

Lemma descending_app_inv (l1 l2 : list Queen) :
  descending (l1 ++ l2) →
  ∀ x y, x ∈ l1 → y ∈ l2 → valid_queens y ≤ valid_queens x.
Proof.
  unfold descending. induction l1 as [|a l1 IH]; simpl; intros Hd x y Hx Hy.
  - by apply elem_of_nil in Hx.
  - apply StronglySorted_inv in Hd as [Hd Ha].
    apply elem_of_cons in Hx as [->|Hx]; [|by apply IH].
    apply (proj1 (Forall_forall _ _) Ha). apply elem_of_app. by right.
Qed.

Lemma py_slice_to_take {X} (l : list X) (k : Z) :
  ∃ m : nat, py_slice_to l k = take m l ∧ (0 ≤ k → m = Z.to_nat k).
Proof.
  unfold py_slice_to. case_decide.
  - eexists. split; [done|lia].
  - eexists. split; done.
Qed.

(** X8.  Whenever an iteration completes, the new population is a prefix
    of the sorted population and no board that was cut off is fitter than a
    board that was kept; from a population of [population_size] boards
    exactly two boards are cut off. *)
Theorem truncation_keeps_fittest (cfg : Config) (n : Z) (st st' : LoopState)
    (g g' : Rng) :
  loop_body cfg n st g = Ok (st', g') →
  ∃ grown discarded,
    grow cfg n (population st) g = Ok (grown, g') ∧
    grown = population st' ++ discarded ∧
    (∀ kept d, kept ∈ population st' → d ∈ discarded →
               valid_queens d ≤ valid_queens kept) ∧
    (Z.of_nat (length (population st)) = population_size cfg →
     length discarded = 2%nat).
Proof.
  intros E. apply loop_body_inv in E as (grown & E & ->). simpl.
  destruct (py_slice_to_take grown (population_size cfg)) as (m & -> & Hm).
  exists grown, (drop m grown). split; [done|].
  split; [by rewrite take_drop|].
  apply grow_inv in E as (c1 & c2 & mutated & _ & _ & Hk & -> & _). split.
  - apply descending_app_inv. rewrite take_drop. apply sort_reverse_descending.
  - intros Hlen. rewrite length_drop, length_sort_reverse.
    rewrite <- (Forall2_length _ _ _ Hk), !length_app. simpl. lia.
Qed.

Lemma truncation_keeps_fittest_witness :
  ∃ st' g' grown discarded,
    loop_body (mkConfig 3 50 5) 4 (mkLoopState sample_population 0)
              (mkRng (lcg 7) 0) = Ok (st', g') ∧
    grown = population st' ++ discarded ∧
    ∀ kept d, kept ∈ population st' → d ∈ discarded →
              valid_queens d ≤ valid_queens kept.
Proof.
  destruct (loop_body_Ok (mkConfig 3 50 5) 4 (mkLoopState sample_population 0)
              (mkRng (lcg 7) 0) ltac:(lia) ltac:(simpl; lia) eq_refl
              sample_population_well_formed)
    as (grown0 & g' & _ & _ & E & _).
  destruct (truncation_keeps_fittest _ _ _ _ _ _ E)
    as (grown & discarded & _ & Hsplit & Hfit & _).
  eexists _, g', grown, discarded. split; [exact E|]. split; [exact Hsplit|].
  exact Hfit.
Defined.

(** ** The mutation rate at its ends *)

Lemma maybe_mutate_never cfg n b g :
  probability_of_mutation cfg ≤ 1 → maybe_mutate cfg n b g = Ok (b, advance g).
Proof.
  intros Hp. unfold maybe_mutate.
  rewrite (M_bind_Ok _ _ _ _ _ (randrange_Ok 100 g ltac:(lia))).
  pose proof (Z.mod_pos_bound (draws g (cursor g)) 100 ltac:(lia)) as Hr.
  unfold mutation_triggers. by rewrite bool_decide_eq_false_2 by lia.
Qed.

(** X9.  With [probability_of_mutation] at most 1 the mutation pass
    mutates no board: it returns the population unchanged after one roll per
    board.  With [probability_of_mutation] at least 101 every roll lets the
    mutation run. *)
Theorem mutation_rate_ends (cfg : Config) (n : Z) :
  (probability_of_mutation cfg ≤ 1 →
   ∀ pop g, for_each_M (maybe_mutate cfg n) pop g
            = Ok (pop, mkRng (draws g) (cursor g + length pop))) ∧
  (101 ≤ probability_of_mutation cfg →
   ∀ b g, maybe_mutate cfg n b g = mutation b n (advance g)).
Proof.
  split.
  - intros Hp pop. induction pop as [|b pop IH]; intros g; simpl.
    + unfold mret, M_ret. rewrite Nat.add_0_r. by destruct g.
    + rewrite (M_bind_Ok _ _ _ _ _ (maybe_mutate_never cfg n b g Hp)).
      rewrite (M_bind_Ok _ _ _ _ _ (IH (advance g))). simpl.
      unfold mret, M_ret. do 2 f_equal. f_equal. lia.
  - intros Hp b g. unfold maybe_mutate.
    rewrite (M_bind_Ok _ _ _ _ _ (randrange_Ok 100 g ltac:(lia))).
    pose proof (Z.mod_pos_bound (draws g (cursor g)) 100 ltac:(lia)) as Hr.
    unfold mutation_triggers. by rewrite bool_decide_eq_true_2 by lia.
Qed.

Lemma mutation_rate_ends_witness :
  for_each_M (maybe_mutate (mkConfig 10 1 10000) 4) sample_population
             (mkRng (lcg 7) 0)
  = Ok (sample_population, mkRng (lcg 7) 3).
Proof.
  apply (proj1 (mutation_rate_ends (mkConfig 10 1 10000) 4)). simpl. lia.
Defined.

(** ** Populations of fewer than two boards *)

Lemma while_loop_empty fuel cfg n it g :
  while_loop fuel cfg n (mkLoopState [] it) g = Raise IndexError.
Proof. by destruct fuel. Qed.

Lemma loop_body_single cfg n q it g :
  loop_body cfg n (mkLoopState [q] it) g = Raise IndexError.
Proof. reflexivity. Qed.

(** X10.  The loop needs two boards to recombine.  With [population_size]
    at most 0 the run raises [IndexError] at the loop guard, which reads
    [population[0]] of an empty list.  With [population_size] equal to 1 the
    run never completes an iteration: it returns the single initial board at
    iteration 0 when that board already has fitness [n] or no iteration is
    allowed, and raises [IndexError] on [population[1]] otherwise. *)
Theorem small_population (cfg : Config) (n : Z) (g : Rng) :
  (population_size cfg ≤ 0 → evolve cfg n g = Raise IndexError) ∧
  (population_size cfg = 1 →
   ∀ q g1, Queen_new n g = Ok (q, g1) →
     evolve cfg n g
     = if bool_decide (valid_queens q ≠ n)
          && bool_decide (0 < max_iterations cfg)
       then Raise IndexError
       else Ok (mkLoopState [q] 0, g1)).
Proof.
  split.
  - intros Hps. unfold evolve, init_population, py_range.
    rewrite seqZ_nil by lia. simpl.
    unfold mbind at 1. unfold M_bind. simpl. apply while_loop_empty.
  - intros Hps q g1 Eq.
    assert (init_population cfg n g = Ok ([q], g1)) as Einit.
    { unfold init_population, py_range. rewrite Hps.
      change (seqZ 0 (1 - 0)) with [0]. cbn [for_each_M].
      rewrite (M_bind_Ok _ _ _ _ _ (M_bind_Ok _ _ _ _ _ Eq)). done. }
    unfold evolve. rewrite (M_bind_Ok _ _ _ _ _ Einit).
    destruct (decide (valid_queens q = n)) as [Hfit|Hfit].
    { rewrite (bool_decide_eq_false_2 (valid_queens q ≠ n)) by auto. simpl.
      apply (while_loop_exit _ _ _ _ _ q); auto. }
    rewrite (bool_decide_eq_true_2 (valid_queens q ≠ n)) by done. simpl.
    destruct (decide (0 < max_iterations cfg)) as [Hmax|Hmax].
    + rewrite bool_decide_eq_true_2 by done.
      destruct (Z.to_nat (max_iterations cfg)) as [|fuel] eqn:Hfuel; [lia|].
      rewrite (while_loop_step _ _ _ _ _ q) by done.
      unfold mbind, M_bind. by rewrite loop_body_single.
    + rewrite bool_decide_eq_false_2 by done.
      apply (while_loop_exit _ _ _ _ _ q); [done|]. right. simpl. lia.
Qed.

Lemma small_population_witness :
  evolve (mkConfig 0 50 10000) 4 (mkRng (lcg 7) 0) = Raise IndexError.
Proof.
  apply (proj1 (small_population (mkConfig 0 50 10000) 4 (mkRng (lcg 7) 0))).
  simpl. lia.
Defined.

(** ** A run on valid arguments *)

Lemma evolve_Ok cfg n g :
  0 < n → 2 ≤ population_size cfg → 0 ≤ max_iterations cfg →
  ∃ st g' best,
    evolve cfg n g = Ok (st, g') ∧ population st !! 0%nat = Some best.
Proof.
  intros Hn Hps Hmax.
  destruct (init_population_Ok cfg n g) as (pop & g1 & Einit & Hs); [lia..|].
  destruct (while_loop_Ok cfg n Hn Hps (Z.to_nat (max_iterations cfg))
              (mkLoopState pop 0) g1 Hs)
    as (st & g' & best & E & _ & Hbest & _).
  { simpl. lia. }
  { simpl. lia. }
  exists st, g', best. unfold evolve. by rewrite (M_bind_Ok _ _ _ _ _ Einit).
Qed.

Lemma read_seed_given py_int (argv : list string) now arg seed :
  length argv = 3%nat → argv !! 2%nat = Some arg → py_int arg = Some seed →
  read_seed py_int argv now = Ok seed.
Proof.
  intros Hlen Harg Hint. unfold read_seed.
  rewrite bool_decide_eq_true_2 by done.
  rewrite (argv_2 argv arg Harg). simpl. by rewrite Hint.
Qed.

Lemma read_seed_clock py_int (argv : list string) now :
  length argv = 2%nat → read_seed py_int argv now = Ok now.
Proof.
  intros Hlen. unfold read_seed. by rewrite bool_decide_eq_false_2 by lia.
Qed.

Lemma main_runs py_int seeded cfg (argv : list string) now arg n seed :
  length argv = 2%nat ∨ length argv = 3%nat →
  argv !! 1%nat = Some arg → py_int arg = Some n → 4 ≤ n →
  read_seed py_int argv now = Ok seed →
  main py_int seeded cfg argv now
  = match evolve cfg n (mkRng (seeded seed) 0) with
    | Ok (st, _) => print_info seed st
    | Raise e => Uncaught e []
    | OutOfFuel => Diverged
    end.
Proof.
  intros Hlen Harg Hint Hn Hseed. unfold main.
  rewrite main_counted by done.
  rewrite (argv_1 argv arg Harg). simpl. rewrite Hint.
  rewrite bool_decide_eq_false_2 by lia. by rewrite Hseed.
Qed.

(** X11.  On valid arguments (a board size that reads as an integer of at
    least 4 and, when given, a seed that reads as an integer) the program
    neither raises nor runs on: it prints the report of the final state of
    the run seeded with the given seed, or with the clock when none is
    given: the iteration count, that seed, the best board and its
    fitness. *)
Theorem main_reports (py_int : string → option Z) (seeded : Z → nat → Z)
    (cfg : Config) (argv : list string) (now : Z) (arg : string) (n seed : Z) :
  2 ≤ population_size cfg → 0 ≤ max_iterations cfg →
  argv !! 1%nat = Some arg → py_int arg = Some n → 4 ≤ n →
  (length argv = 2%nat ∧ seed = now) ∨
  (length argv = 3%nat ∧
   ∃ arg_2, argv !! 2%nat = Some arg_2 ∧ py_int arg_2 = Some seed) →
  ∃ st g' best,
    evolve cfg n (mkRng (seeded seed) 0) = Ok (st, g') ∧
    population st !! 0%nat = Some best ∧
    main py_int seeded cfg argv now
    = Reported (["Iteration: " +:+ tab +:+ pretty (current_iteration st);
                 "Random Seed:" +:+ tab +:+ pretty seed]
                ++ print_board best
                ++ ["Valid queens: " +:+ tab +:+ pretty (valid_queens best)])
               st.
Proof.
  intros Hps Hmax Harg Hint Hn Hseed.
  destruct (evolve_Ok cfg n (mkRng (seeded seed) 0)) as (st & g' & best & E & Hbest);
    [lia|done|done|].
  exists st, g', best. split; [done|]. split; [done|].
  rewrite (main_runs py_int seeded cfg argv now arg n seed); try done.
  - rewrite E. unfold print_info.
    pose proof (py_getitem_nat _ 0 _ Hbest) as Eb.
    change (Z.of_nat 0) with 0 in Eb. by rewrite Eb.
  - destruct Hseed as [[Hlen _]|[Hlen _]]; auto.
  - destruct Hseed as [[Hlen ->]|(Hlen & arg_2 & Harg2 & Hint2)].
    + by apply read_seed_clock.
    + by apply (read_seed_given _ _ _ arg_2).
Qed.

Lemma main_reports_witness :
  ∃ st g' best,
    evolve default_config 4 (mkRng (lcg 7) 0) = Ok (st, g') ∧
    population st !! 0%nat = Some best ∧
    main read_int lcg default_config ["ec.py"; "4"; "7"] 0
    = Reported (["Iteration: " +:+ tab +:+ pretty (current_iteration st);
                 "Random Seed:" +:+ tab +:+ pretty 7]
                ++ print_board best
                ++ ["Valid queens: " +:+ tab +:+ pretty (valid_queens best)])
               st.
Proof.
  apply (main_reports read_int lcg default_config ["ec.py"; "4"; "7"] 0 "4" 4 7).
  - simpl. lia.
  - simpl. lia.
  - reflexivity.
  - reflexivity.
  - lia.
  - right. split; [reflexivity|]. by exists "7".
Defined.

(** X12.  The printed seed replays the run: a run whose seed came from the
    clock ends exactly as a run given a seed argument that reads as that
    clock value; and once a seed argument is given, the clock has no
    influence on the outcome. *)
Theorem seed_replay (py_int : string → option Z) (seeded : Z → nat → Z)
    (cfg : Config) (prog arg arg_2 : string) (now now' : Z) :
  (py_int arg_2 = Some now →
   main py_int seeded cfg [prog; arg] now
   = main py_int seeded cfg [prog; arg; arg_2] now') ∧
  main py_int seeded cfg [prog; arg; arg_2] now
  = main py_int seeded cfg [prog; arg; arg_2] now'.
Proof.
  split.
  - intros Hint. unfold main, read_seed. simpl.
    unfold mbind, result_bind. change (py_getitem [prog; arg] 1) with (Ok arg).
    change (py_getitem [prog; arg; arg_2] 1) with (Ok arg).
    change (py_getitem [prog; arg; arg_2] 2) with (Ok arg_2).
    rewrite Hint. done.
  - reflexivity.
Qed.

Lemma seed_replay_witness :
  main read_int lcg default_config ["ec.py"; "4"] 7
  = main read_int lcg default_config ["ec.py"; "4"; "7"] 0.
Proof.
  apply (proj1 (seed_replay read_int lcg default_config "ec.py" "4" "7" 7 0)).
  reflexivity.
Defined.

(** ** The board that is reported *)

(** X13.  Whenever the run returns, the final population has
    [population_size] boards and the board reported, [population[0]], is at
    least as fit as every board of that population. *)
Theorem report_is_fittest (cfg : Config) (n : Z) (g g' : Rng)
    (st : LoopState) (best : Queen) :
  0 < n → 2 ≤ population_size cfg →
  evolve cfg n g = Ok (st, g') → population st !! 0%nat = Some best →
  Z.of_nat (length (population st)) = population_size cfg ∧
  ∀ b, b ∈ population st → valid_queens b ≤ valid_queens best.
Proof.
  intros Hn Hps E Hbest. unfold evolve in E.
  apply M_bind_inv in E as (pop & g1 & Einit & E).
  destruct (init_population_Ok cfg n g Hn ltac:(lia)) as (pop0 & g0 & E0 & Hs0).
  rewrite Einit in E0. injection E0 as <- <-.
  apply (while_loop_invariant (λ s, settled cfg n (population s)))
    in E as [(Hlen & _ & Hd) _]; [| |done].
  - split; [done|]. intros b Hb.
    destruct (population st) as [|b0 rest]; [done|].
    injection Hbest as ->. by apply (descending_head_max best rest).
  - intros s g2 s' g3 Hs Eb. by eapply loop_body_settled.
Qed.

Lemma report_is_fittest_witness :
  ∃ st g' best,
    evolve default_config 4 (mkRng (lcg 7) 0) = Ok (st, g') ∧
    population st !! 0%nat = Some best ∧
    ∀ b, b ∈ population st → valid_queens b ≤ valid_queens best.
Proof.
  destruct (evolve_Ok default_config 4 (mkRng (lcg 7) 0)
              ltac:(lia) ltac:(simpl; lia) ltac:(simpl; lia))
    as (st & g' & best & E & Hbest).
  exists st, g', best. split; [exact E|]. split; [exact Hbest|].
  exact (proj2 (report_is_fittest default_config 4 _ _ _ _
                  ltac:(lia) ltac:(simpl; lia) E Hbest)).
Defined.
